(** * ForSyDe-SystemC type introspection (src/forsyde/types.hpp)

    A shallow embedding of the type catalogue of ForSyDe-SystemC: the name
    resolver [get_type_name], the singleton [TypeContainer] with its XML
    document, and the descriptor builder [IntrospectiveType] ([traverse],
    [add_type_node], [traverse_tuple], [size_to_char], [char_to_size]).

    C++ template instantiation is modelled by recursion over an inductive
    type of type expressions; the mutable singleton, the free store and the
    files written by [printXML] are threaded through a state-and-exception
    monad. *)

From Stdlib Require Import NArith Ascii String List Bool Lia.
Import ListNotations.
Local Open Scope string_scope.
Local Open Scope N_scope.

Set Warnings "-register-all".

(** ** C strings *)

(** A [const char*] as the program observes it: the address held by the
    pointer and the characters stored there up to the terminating NUL.
    The operator [==] on two such pointers compares the addresses only. *)
Record cstr : Type := mk_cstr { c_addr : N; c_text : string }.

Definition ptr_eqb (p q : cstr) : bool := c_addr p =? c_addr q.

(** ** Type expressions *)

(** The types that have a [DEFINE_TYPE] line. *)
Inductive prim : Type :=
| p_char | p_short_int | p_unsigned_short_int | p_int | p_unsigned_int
| p_long_int | p_unsigned_long_int | p_long_long_int
| p_unsigned_long_long_int | p_bool | p_float | p_double | p_long_double
| p_wchar_t.

(** A template argument [T].  [TOther u] stands for any type that is neither
    one of the fourteen above, nor a [Vector], nor a [Tuple] (a class, an
    enumeration, a pointer, ...); [u] tells such types apart. *)
Inductive ctype : Type :=
| TPrim (p : prim)
| TOther (u : N)
| TVector (T : ctype)
| TTuple (Ts : list ctype).

(** ** The XML tree of rapidxml *)

Inductive node_type : Type := node_document | node_element.

(** rapidxml keeps the pointers it is handed and copies no characters, so
    an attribute value is a [cstr].  Node and attribute names are only ever
    compared by their characters and are kept as text. *)
Record xml_attribute : Type :=
  mk_attribute { a_name : string; a_value : cstr }.

Inductive xml_node : Type :=
| mk_node (type : node_type) (name : string)
          (attributes : list xml_attribute) (children : list xml_node).

Definition n_type (n : xml_node) : node_type :=
  let 'mk_node t _ _ _ := n in t.
Definition n_name (n : xml_node) : string :=
  let 'mk_node _ s _ _ := n in s.
Definition n_attributes (n : xml_node) : list xml_attribute :=
  let 'mk_node _ _ a _ := n in a.
Definition n_children (n : xml_node) : list xml_node :=
  let 'mk_node _ _ _ c := n in c.

Definition allocate_node (t : node_type) (name : string) : xml_node :=
  mk_node t name [] [].

Definition allocate_attribute (name : string) (value : cstr) : xml_attribute :=
  mk_attribute name value.

Definition append_node (parent child : xml_node) : xml_node :=
  let 'mk_node t s a c := parent in mk_node t s a (c ++ [child]).

Definition append_attribute (node : xml_node) (attr : xml_attribute) : xml_node :=
  let 'mk_node t s a c := node in mk_node t s (a ++ [attr]) c.

(** [first_attribute(name)]: the first attribute whose name has the given
    characters, or null. *)
Definition first_attribute (name : string) (node : xml_node)
  : option xml_attribute :=
  find (fun a => String.eqb (a_name a) name) (n_attributes node).

(** ** Constants of types.hpp *)

Definition const_name : string := "name".
Definition const_data_type : string := "data_type".
Definition const_primitive : string := "primitive".
Definition const_vector : string := "vector".
Definition const_tuple : string := "tuple".
Definition const_size : string := "size".
Definition const_length : string := "length".
Definition const_root_type : string := "forsyde_types".

(** The stringification [#X] of each [DEFINE_TYPE(X)]. *)
Definition prim_literal (p : prim) : string :=
  match p with
  | p_char => "char"
  | p_short_int => "short int"
  | p_unsigned_short_int => "unsigned short int"
  | p_int => "int"
  | p_unsigned_int => "unsigned int"
  | p_long_int => "long int"
  | p_unsigned_long_int => "unsigned long int"
  | p_long_long_int => "long long int"
  | p_unsigned_long_long_int => "unsigned long long int"
  | p_bool => "bool"
  | p_float => "float"
  | p_double => "double"
  | p_long_double => "long double"
  | p_wchar_t => "wchar_t"
  end.

(** ** The singleton and the world it lives in *)

(** [root_node] points at the only child of [xml_doc]; the record keeps that
    child and [xml_doc] is read off it. *)
Record TypeContainer : Type := mk_container { root_node : xml_node }.

Definition xml_doc (tc : TypeContainer) : xml_node :=
  mk_node node_document "" [] [root_node tc].

(** What the compiler, the run-time library and SystemC decide. *)
Class Host : Type := {
  (** width of [size_t] in bits *)
  size_bits : N;
  (** [sizeof(T)] *)
  sizeof : ctype -> N;
  (** where the literal [#X] of [DEFINE_TYPE(X)] is stored *)
  literal_addr : prim -> N;
  (** [typeid(T).name()] of the primary template (or the [N] of a
      [DEFINE_TYPE_NAME(T,N)] line): one fixed pointer per type *)
  typeid_name : ctype -> cstr;
  (** the free store and [new char[n]] *)
  heap : Type;
  new_char : N -> heap -> N * heap;
  (** whether [std::ofstream] can open a path for writing *)
  can_open : string -> bool;
  (** [operator<<] of rapidxml_print.hpp on the document node *)
  print : xml_node -> string;
  (** what the uninitialised local [size] of [char_to_size] holds when the
      extraction stores nothing *)
  indeterminate_size : N
}.

(** The process state: the function-local static of [TypeContainer::get]
    (absent until the first call), the free store, and the files written. *)
Record world `{Host} : Type := mk_world {
  instance : option TypeContainer;
  store : heap;
  files : list (string * string)
}.
Arguments mk_world {_} _ _ _.

(** What can stop a call: an instantiation that names a member the selected
    template does not have, a null pointer dereferenced, or the report
    raised by [SC_REPORT_ERROR]. *)
Inductive exn : Type :=
| no_member_get
| null_dereference
| sc_report (msg_type msg : string).

Inductive outcome (A : Type) : Type :=
| Ok (a : A)
| Throw (e : exn).
Arguments Ok {A} a.
Arguments Throw {A} e.

Section Monad.
Context `{Host}.

(** A call runs in a world and leaves a world behind, also when it throws. *)
Definition M (A : Type) : Type := world -> outcome A * world.

Definition ret {A} (a : A) : M A := fun w => (Ok a, w).

Definition bind {A B} (m : M A) (k : A -> M B) : M B :=
  fun w => match m w with
           | (Ok a, w') => k a w'
           | (Throw e, w') => (Throw e, w')
           end.

Definition throw {A} (e : exn) : M A := fun w => (Throw e, w).
End Monad.

Notation "x <- m ;; k" := (bind m (fun x => k))
  (at level 61, m at next level, right associativity).
Notation "m ;;; k" := (bind m (fun _ => k))
  (at level 61, right associativity).

(** ** Decimal text of a [size_t] *)

Definition digit_char (d : N) : ascii := ascii_of_N (48 + d).

(** [std::to_string] on an unsigned value: the decimal digits, most
    significant first, no leading zero; [fuel] bounds the number of
    divisions by ten. *)
Fixpoint to_chars (fuel : nat) (n : N) (acc : string) : string :=
  let acc' := String (digit_char (n mod 10)) acc in
  match fuel with
  | O => acc'
  | S fuel' => if n / 10 =? 0 then acc' else to_chars fuel' (n / 10) acc'
  end.

Definition to_string (n : N) : string :=
  to_chars (N.to_nat (N.log2 n)) n "".

Definition is_digit (c : ascii) : bool :=
  (48 <=? N_of_ascii c) && (N_of_ascii c <=? 57).

(** [isspace] in the C locale. *)
Definition is_space (c : ascii) : bool :=
  (N_of_ascii c =? 32) || ((9 <=? N_of_ascii c) && (N_of_ascii c <=? 13)).

Fixpoint skip_ws (s : string) : string :=
  match s with
  | String c s' => if is_space c then skip_ws s' else s
  | EmptyString => s
  end.

(** The value of the digits a string starts with, continuing from [v]. *)
Fixpoint digits_value (s : string) (v : N) : N :=
  match s with
  | String c s' =>
      if is_digit c then digits_value s' (10 * v + (N_of_ascii c - 48)) else v
  | EmptyString => v
  end.

Definition starts_with_digit (s : string) : bool :=
  match s with
  | String c _ => is_digit c
  | EmptyString => false
  end.

(** ** The program *)

Section Types_hpp.
Context `{Host}.

Definition SIZE_MAX : N := 2 ^ size_bits - 1.

(** [N - 1] on a [size_t] template argument. *)
Definition size_pred (n : N) : N := (n + SIZE_MAX) mod 2 ^ size_bits.

(** [template<typename T> const char* get_type_name()]: the literal of the
    [DEFINE_TYPE] specialisation where there is one, the RTTI name
    otherwise. *)
Definition get_type_name (T : ctype) : cstr :=
  match T with
  | TPrim p => mk_cstr (literal_addr p) (prim_literal p)
  | _ => typeid_name T
  end.

(** *** class TypeContainer *)

(** The private constructor: a document whose only child is the root
    element. *)
Definition TypeContainer_new : TypeContainer :=
  mk_container (allocate_node node_element const_root_type).

(** [TypeContainer::get()]: the static instance, constructed by the first
    call. *)
Definition TypeContainer_get : M TypeContainer :=
  fun w =>
    match instance w with
    | Some tc => (Ok tc, w)
    | None =>
        (Ok TypeContainer_new,
         mk_world (Some TypeContainer_new) (store w) (files w))
    end.

Definition root (tc : TypeContainer) : xml_node := root_node tc.

(** A write through the pointer [root()]: the singleton's root element
    becomes [r]. *)
Definition set_root (r : xml_node) : M unit :=
  fun w => (Ok tt, mk_world (Some (mk_container r)) (store w) (files w)).

(** [TypeContainer::get().add_node(parent, name)].  The source links the new
    node under [parent] and returns a pointer through which the caller then
    fills it in; here [rest] is what the caller does through that pointer,
    and the filled node is the one linked. *)
Definition add_node (parent : xml_node) (name : string)
           (rest : xml_node -> M xml_node) : M xml_node :=
  _ <- TypeContainer_get;;
  node <- rest (allocate_node node_element name);;
  ret (append_node parent node).

(** [TypeContainer::get().add_attribute(node, attr_name, attr_val)]; the
    result is the node as it is after the call. *)
Definition add_attribute (node : xml_node) (attr_name : string)
           (attr_val : cstr) : M xml_node :=
  _ <- TypeContainer_get;;
  ret (append_attribute node (allocate_attribute attr_name attr_val)).

(** *** class IntrospectiveType *)

(** [size_to_char]: the decimal text in a fresh array of [str.size() + 1]
    characters. *)
Definition size_to_char (size : N) : M cstr :=
  let str := to_string size in
  fun w =>
    let (writable, h) :=
      new_char (N.of_nat (String.length str) + 1) (store w) in
    (Ok (mk_cstr writable str), mk_world (instance w) h (files w)).

(** [char_to_size]: [iss >> size] on an [std::istringstream].  The stream's
    sentry skips white space; where the text ends there, the extraction
    does not take place, nothing is stored and the local [size] is returned
    as it was, uninitialised.  Otherwise [num_get] for an unsigned type
    reads: a sign is accepted, the digits are accumulated; no digit gives
    0, a value above the largest [size_t] gives that largest value, and a
    minus sign negates modulo [2 ^ size_bits]. *)
Definition extract_size (s : string) : N :=
  match skip_ws s with
  | EmptyString => indeterminate_size
  | String c s' =>
      let signed :=
        if N_of_ascii c =? 45 then (true, s')
        else if N_of_ascii c =? 43 then (false, s')
        else (false, String c s') in
      let (negative, s) := signed in
      if starts_with_digit s then
        let v := digits_value s 0 in
        if SIZE_MAX <? v then SIZE_MAX
        else if negative then (2 ^ size_bits - v) mod 2 ^ size_bits
        else v
      else 0
  end.

Definition char_to_size (char_size : cstr) : N :=
  extract_size (c_text char_size).

(** [add_type_node<T>::get(parent)], by the shape of [T]: the partial
    specialisations for [Vector<T>] and [Tuple<T...>], and the primary
    template for every other type.  The inner recursion is
    [traverse_tuple<N, Tuple<Head, Tail...>>::get], stated on its own as
    [traverse_tuple] below. *)
Fixpoint add_type_node (T : ctype) (parent : xml_node) {struct T}
  : M xml_node :=
  match T with
  | TVector T' =>
      add_node parent const_vector (fun vector_node =>
        vector_node <- add_type_node T' vector_node;;
        size <- size_to_char (sizeof T);;
        add_attribute vector_node const_size size)
  | TTuple Ts =>
      add_node parent const_tuple (fun tuple_node =>
        (fix traverse_tuple (n : N) (Tup : list ctype) (parent : xml_node)
             {struct Tup} : M xml_node :=
           match Tup with
           | [] => throw no_member_get
           | Head :: Tail =>
               if n =? 1 then add_type_node Head parent
               else
                 parent <- add_type_node Head parent;;
                 traverse_tuple (size_pred n) Tail parent
           end) (N.of_nat (length Ts)) Ts tuple_node)
  | _ =>
      add_node parent const_primitive (fun primitive_node =>
        primitive_node <-
          add_attribute primitive_node const_name (get_type_name T);;
        size <- size_to_char (sizeof T);;
        add_attribute primitive_node const_size size)
  end.

(** [traverse_tuple<N, Tup>::get(parent)].  The primary template has no
    member [get]; the specialisation for [N = 1] adds [Head] and stops; the
    one for a general [N] adds [Head] and goes on with [N - 1] and
    [Tail...]. *)
Fixpoint traverse_tuple (n : N) (Tup : list ctype) (parent : xml_node)
         {struct Tup} : M xml_node :=
  match Tup with
  | [] => throw no_member_get
  | Head :: Tail =>
      if n =? 1 then add_type_node Head parent
      else
        parent <- add_type_node Head parent;;
        traverse_tuple (size_pred n) Tail parent
  end.

(** The loop of [traverse] over the children of the root: whether some
    [child->first_attribute(const_name)->value() == type_name]. *)
Fixpoint traverse_scan (type_name : cstr) (children : list xml_node)
  : M bool :=
  match children with
  | [] => ret false
  | child :: siblings =>
      match first_attribute const_name child with
      | None => throw null_dereference
      | Some attr =>
          if ptr_eqb (a_value attr) type_name then ret true
          else traverse_scan type_name siblings
      end
  end.

(** [IntrospectiveType::traverse<T>()]. *)
Definition traverse (T : ctype) : M cstr :=
  tc <- TypeContainer_get;;
  let root := root tc in
  let type_name := get_type_name T in
  found <- traverse_scan type_name (n_children root);;
  if found then ret type_name
  else
    root <- add_node root const_data_type (fun type_node =>
              type_node <- add_attribute type_node const_name type_name;;
              add_type_node T type_node);;
    set_root root;;;
    ret type_name.

(** *** Writing the document *)

Definition quote : string := String (ascii_of_N 34) "".
Definition endl : string := String (ascii_of_N 10) "".

(** The files written, by path; two spellings of a path are not
    identified. *)
Definition file_content (path : string) (fs : list (string * string))
  : option string :=
  match find (fun e => String.eqb (fst e) path) fs with
  | Some e => Some (snd e)
  | None => None
  end.

Definition set_file (path content : string) (fs : list (string * string))
  : list (string * string) :=
  (path, content) :: filter (fun e => negb (String.eqb (fst e) path)) fs.

(** [std::ofstream outFile(fileName)]: where the path can be opened the file
    is created or emptied; the result is [outFile.is_open()]. *)
Definition ofstream_open (fileName : string) : M bool :=
  fun w =>
    if can_open fileName
    then (Ok true,
          mk_world (instance w) (store w) (set_file fileName "" (files w)))
    else (Ok false, w).

(** [outFile << text]: appends to an open file, does nothing otherwise. *)
Definition ofstream_put (fileName : string) (is_open : bool) (text : string)
  : M unit :=
  fun w =>
    if is_open
    then match file_content fileName (files w) with
         | Some old =>
             (Ok tt, mk_world (instance w) (store w)
                              (set_file fileName (old ++ text) (files w)))
         | None => (Ok tt, w)
         end
    else (Ok tt, w).

(** Modelled from the spec: [SC_REPORT_ERROR] is SystemC's macro and is not
    among the sources.  The failure is raised to the caller and carries the
    message type, here the path, and the message. *)
Definition SC_REPORT_ERROR (msg_type msg : string) : M unit :=
  throw (sc_report msg_type msg).

Definition not_opened : string :=
  "file could not be opened to write the introspection output. Does the path exists?".

Definition xml_declaration : string :=
  "<?xml version=" ++ quote ++ "1.0" ++ quote ++ " ?>".

Definition generated_by : string :=
  "<!-- Automatically generated by ForSyDe -->".

(** [TypeContainer::printXML(fileName)] on the instance [this]. *)
Definition printXML (this : TypeContainer) (fileName : string) : M unit :=
  is_open <- ofstream_open fileName;;
  (if negb is_open then SC_REPORT_ERROR fileName not_opened else ret tt);;;
  ofstream_put fileName is_open (xml_declaration ++ endl);;;
  ofstream_put fileName is_open (generated_by ++ endl);;;
  ofstream_put fileName is_open (print (xml_doc this)).

(** [TypeContainer::get().printXML(fileName)]. *)
Definition flush (fileName : string) : M unit :=
  tc <- TypeContainer_get;;
  printXML tc fileName.

End Types_hpp.

(** ** Reading the catalogue *)

(** The characters of a returned name, where the call returned. *)
Definition result_text (r : outcome cstr) : option string :=
  match r with
  | Ok p => Some (c_text p)
  | Throw _ => None
  end.

(** The document as a reader of the written file sees it: tags, attribute
    names and attribute texts, without the addresses. *)
Inductive xml_text : Type :=
| Tag (name : string) (attrs : list (string * string))
      (children : list xml_text).

Fixpoint view (n : xml_node) : xml_text :=
  let 'mk_node _ s a c := n in
  Tag s (map (fun x => (a_name x, c_text (a_value x))) a) (map view c).

Definition tag_name (t : xml_text) : string :=
  let 'Tag s _ _ := t in s.
Definition tag_attrs (t : xml_text) : list (string * string) :=
  let 'Tag _ a _ := t in a.
Definition tag_children (t : xml_text) : list xml_text :=
  let 'Tag _ _ c := t in c.

Definition has_attr (key : string) (t : xml_text) : bool :=
  existsb (fun kv => String.eqb (fst kv) key) (tag_attrs t).

Definition text_attr (key : string) (t : xml_text) : option string :=
  option_map snd (find (fun kv => String.eqb (fst kv) key) (tag_attrs t)).

(** The element carries the name [s]. *)
Definition named_as (s : string) (t : xml_text) : bool :=
  match text_attr const_name t with
  | Some v => String.eqb v s
  | None => false
  end.

(** No node of the subtree carries a [name] attribute. *)
Fixpoint unnamed (t : xml_text) : bool :=
  let 'Tag _ _ c := t in
  negb (has_attr const_name t) && forallb unnamed c.

(** The [name] attribute sits on the entry and nowhere below it. *)
Definition name_only_at_top (entry : xml_text) : bool :=
  has_attr const_name entry && forallb unnamed (tag_children entry).

(** Every node of the subtree carries a [name] attribute exactly when it is
    a [data_type] or a [primitive] element. *)
Fixpoint names_placed (t : xml_text) : bool :=
  let 'Tag s _ c := t in
  Bool.eqb (has_attr const_name t)
           (String.eqb s const_data_type || String.eqb s const_primitive)
  && forallb names_placed c.

Section Catalogue.
Context `{Host}.

(** The types [add_type_node] can be instantiated for: every tuple inside
    has at least one component, and its arity is a [size_t]. *)
Fixpoint instantiable (T : ctype) : bool :=
  match T with
  | TVector T' => instantiable T'
  | TTuple Ts =>
      (1 <=? N.of_nat (length Ts)) && (N.of_nat (length Ts) <=? SIZE_MAX)
      && forallb instantiable Ts
  | _ => true
  end.

(** The descriptor of section 4.2 of the specification, as text: a
    primitive leaf with name and size, a vector with its size and the
    element's descriptor, a tuple with the components' descriptors in
    declaration order and no size. *)
Fixpoint spec_descriptor (T : ctype) : xml_text :=
  match T with
  | TVector T' =>
      Tag const_vector [(const_size, to_string (sizeof T))]
          [spec_descriptor T']
  | TTuple Ts => Tag const_tuple [] (map spec_descriptor Ts)
  | _ =>
      Tag const_primitive
          [(const_name, c_text (get_type_name T));
           (const_size, to_string (sizeof T))] []
  end.

(** The top-level entry of section 4.3. *)
Definition spec_entry (T : ctype) : xml_text :=
  Tag const_data_type [(const_name, c_text (get_type_name T))]
      [spec_descriptor T].

(** [add_type_node<T>] run in [w] links the node [d] under whatever parent
    it is given and leaves [w']. *)
Definition builds (T : ctype) (w : world) (d : xml_node) (w' : world) : Prop :=
  forall parent, add_type_node T parent w = (Ok (append_node parent d), w').

(** The same for a pack of types, one after the other. *)
Inductive builds_all : list ctype -> world -> list xml_node -> world -> Prop :=
| builds_nil w : builds_all [] w [] w
| builds_cons T Ts w d w1 ds w2 :
    builds T w d w1 -> builds_all Ts w1 ds w2 ->
    builds_all (T :: Ts) w (d :: ds) w2.

(** A process that has not touched the catalogue yet. *)
Definition fresh (h : heap) (fs : list (string * string)) : world :=
  mk_world None h fs.

(** The world once [TypeContainer::get()] has been called. *)
Definition started (w : world) : world :=
  mk_world (Some (match instance w with
                  | Some tc => tc
                  | None => TypeContainer_new
                  end)) (store w) (files w).

(** The top-level entries of the catalogue. *)
Definition entries (w : world) : list xml_node :=
  match instance w with
  | Some tc => n_children (root tc)
  | None => []
  end.

Definition entry_name (e : xml_node) : option cstr :=
  option_map a_value (first_attribute const_name e).

(** A sequence of calls [traverse<T1>(); ...; traverse<Tn>();]. *)
Fixpoint traverse_all (Ts : list ctype) : M unit :=
  match Ts with
  | [] => ret tt
  | T :: Ts' => traverse T;;; traverse_all Ts'
  end.

(** The types of a call sequence that get an entry: those whose name
    pointer was not seen earlier in the sequence. *)
Fixpoint first_calls (seen : list N) (Ts : list ctype) : list ctype :=
  match Ts with
  | [] => []
  | T :: Ts' =>
      let a := c_addr (get_type_name T) in
      if existsb (N.eqb a) seen then first_calls seen Ts'
      else T :: first_calls (a :: seen) Ts'
  end.

(** The entry that [traverse<T>] links under the root: a [data_type]
    element that holds the pointer [get_type_name<T>()] as its name and one
    descriptor, whose text is the descriptor of the specification. *)
Definition entry_for (T : ctype) (e : xml_node) : Prop :=
  exists d,
    e = mk_node node_element const_data_type
                [mk_attribute const_name (get_type_name T)] [d]
    /\ view d = spec_descriptor T.

(** The singleton exists and its root holds one entry for each of [Rs], in
    that order. *)
Definition catalogue (Rs : list ctype) (w : world) : Prop :=
  exists E,
    instance w = Some (mk_container
                         (mk_node node_element const_root_type [] E))
    /\ Forall2 entry_for Rs E.

Definition name_addr (T : ctype) : N := c_addr (get_type_name T).
Definition name_text (T : ctype) : string := c_text (get_type_name T).

(** The worlds a process can be in: some sequence of calls to [traverse],
    each for a type it can be instantiated for, has run since the start,
    and [TypeContainer::get()] may have been called after it.  The files
    are arbitrary, so flushes in between are covered. *)
Definition reachable (w : world) : Prop :=
  exists Ts h fs w0,
    forallb instantiable Ts = true
    /\ traverse_all Ts (fresh h fs) = (Ok tt, w0)
    /\ (w = w0 \/ w = started w0).

(** Some top-level entry holds the pointer [a] as its name. *)
Definition holds_pointer (a : N) (w : world) : bool :=
  existsb (fun e => match entry_name e with
                    | Some p => c_addr p =? a
                    | None => false
                    end) (entries w).

(** What a successful [flush] leaves in the file. *)
Definition written (tc : TypeContainer) : string :=
  ((xml_declaration ++ endl) ++ (generated_by ++ endl))
  ++ print (xml_doc tc).

End Catalogue.

(** ** Induction over type expressions *)

Section ctype_induction.
Variable P : ctype -> Prop.
Hypothesis P_prim : forall p, P (TPrim p).
Hypothesis P_other : forall u, P (TOther u).
Hypothesis P_vector : forall T, P T -> P (TVector T).
Hypothesis P_tuple : forall Ts, Forall P Ts -> P (TTuple Ts).

Fixpoint ctype_nested_ind (T : ctype) : P T :=
  match T with
  | TPrim p => P_prim p
  | TOther u => P_other u
  | TVector T' => P_vector T' (ctype_nested_ind T')
  | TTuple Ts =>
      P_tuple Ts
        ((fix all (l : list ctype) : Forall P l :=
            match l with
            | [] => Forall_nil P
            | T' :: l' => Forall_cons T' (ctype_nested_ind T') (all l')
            end) Ts)
  end.
End ctype_induction.

(** ** Hosts for the examples *)

Definition prim_index (p : prim) : N :=
  match p with
  | p_char => 0 | p_short_int => 1 | p_unsigned_short_int => 2 | p_int => 3
  | p_unsigned_int => 4 | p_long_int => 5 | p_unsigned_long_int => 6
  | p_long_long_int => 7 | p_unsigned_long_long_int => 8 | p_bool => 9
  | p_float => 10 | p_double => 11 | p_long_double => 12 | p_wchar_t => 13
  end.

(** Sizes of an LP64 host; a class [TOther u] is given [u + 1] bytes, a
    vector handle three pointers, a tuple the sum of its components. *)
Fixpoint lp64_sizeof (T : ctype) : N :=
  match T with
  | TPrim p =>
      match p with
      | p_char | p_bool => 1
      | p_short_int | p_unsigned_short_int => 2
      | p_int | p_unsigned_int | p_float | p_wchar_t => 4
      | p_long_double => 16
      | _ => 8
      end
  | TOther u => u + 1
  | TVector _ => 24
  | TTuple Ts => fold_right (fun T' s => lp64_sizeof T' + s) 0 Ts
  end.

(** Type names in the manner of a name mangler: a letter per built-in type,
    [C<u>] for a class, [V..E] and [T..E] around the arguments. *)
Fixpoint mangled (T : ctype) : string :=
  match T with
  | TPrim p =>
      match p with
      | p_char => "c" | p_short_int => "s" | p_unsigned_short_int => "t"
      | p_int => "i" | p_unsigned_int => "j" | p_long_int => "l"
      | p_unsigned_long_int => "m" | p_long_long_int => "x"
      | p_unsigned_long_long_int => "y" | p_bool => "b" | p_float => "f"
      | p_double => "d" | p_long_double => "e" | p_wchar_t => "w"
      end
  | TOther u => "C" ++ to_string u
  | TVector T' => "V" ++ mangled T' ++ "E"
  | TTuple Ts => "T" ++ fold_right (fun T' s => mangled T' ++ s) "E" Ts
  end.

(** The characters of a text read as one number: equal texts, equal
    numbers. *)
Fixpoint text_code (s : string) : N :=
  match s with
  | EmptyString => 1
  | String c s' => 1 + N_of_ascii c + 257 * text_code s'
  end.

Definition tabs (n : nat) : string :=
  fold_right append "" (repeat (String (ascii_of_N 9) "") n).

Definition print_attributes (attrs : list xml_attribute) : string :=
  fold_right
    (fun a s =>
       " " ++ a_name a ++ "=" ++ quote ++ c_text (a_value a) ++ quote ++ s)
    "" attrs.

(** A printer in the manner of rapidxml_print.hpp: one element per line,
    indented by tabs; the texts used in the examples need no escaping. *)
Fixpoint rapid_print (indent : nat) (n : xml_node) : string :=
  let 'mk_node t s a c := n in
  match t with
  | node_document => fold_right append "" (map (rapid_print indent) c)
  | node_element =>
      tabs indent ++ "<" ++ s ++ print_attributes a
      ++ match c with
         | [] => "/>"
         | _ => ">" ++ endl
                ++ fold_right append "" (map (rapid_print (S indent)) c)
                ++ tabs indent ++ "</" ++ s ++ ">"
         end
      ++ endl
  end.

Definition make_host (names : ctype -> cstr) : Host :=
  {| size_bits := 64;
     sizeof := lp64_sizeof;
     literal_addr := fun p => 4096 + 32 * prim_index p;
     typeid_name := names;
     heap := N;
     new_char := fun n h => (h, h + n);
     can_open := fun path => negb (String.prefix "/missing/" path);
     print := rapid_print 0;
     indeterminate_size := 3435973836 |}.

(** Every type has its own name, stored where the characters say. *)
Definition demo_host : Host :=
  make_host (fun T => mk_cstr (65536 + text_code (mangled T)) (mangled T)).

(** Two classes are given the same characters in two different arrays: what
    [DEFINE_TYPE_NAME(A, na)] and [DEFINE_TYPE_NAME(B, nb)] do for two
    arrays [na] and [nb] of equal content. *)
Definition alias_host : Host :=
  make_host (fun T =>
    match T with
    | TOther u => mk_cstr (8192 + 16 * u) "pkt"
    | _ => mk_cstr (65536 + text_code (mangled T)) (mangled T)
    end).

(** All classes are given one and the same array. *)
Definition pooled_host : Host :=
  make_host (fun T =>
    match T with
    | TOther _ => mk_cstr 8192 "pkt"
    | _ => mk_cstr (65536 + text_code (mangled T)) (mangled T)
    end).

(** [TOther 0] stands for [const Vector<int>]: no specialisation of
    [add_type_node] matches it, and [typeid] ignores the qualifier, so its
    RTTI name is the one of [Vector<int>]. *)
Definition cv_host : Host :=
  make_host (fun T =>
    match T with
    | TOther 0 =>
        mk_cstr (65536 + text_code (mangled (TVector (TPrim p_int))))
                (mangled (TVector (TPrim p_int)))
    | _ => mk_cstr (65536 + text_code (mangled T)) (mangled T)
    end).

(** A process on such a host before its first call. *)
Definition demo_world (names : ctype -> cstr) : @world (make_host names) :=
  @mk_world (make_host names) None 1048576 [].

(** ** Further readings of types and documents *)

Section Arities.
Context `{Host}.

(** Every tuple inside the type has an arity that is a [size_t]. *)
Fixpoint arity_ok (T : ctype) : bool :=
  match T with
  | TVector T' => arity_ok T'
  | TTuple Ts => (N.of_nat (length Ts) <=? SIZE_MAX) && forallb arity_ok Ts
  | _ => true
  end.

End Arities.

(** The type has a [DEFINE_TYPE] line; every other type gets the RTTI
    fallback name. *)
Definition has_define_type (T : ctype) : bool :=
  match T with
  | TPrim _ => true
  | _ => false
  end.

Definition attr_keys (t : xml_text) : list string := map fst (tag_attrs t).

(** The element carries exactly the attributes [ks], in that order. *)
Definition keys_are (ks : list string) (t : xml_text) : bool :=
  if list_eq_dec string_dec (attr_keys t) ks then true else false.

(** The shape of a descriptor: a [primitive] leaf with [name] and [size], a
    [vector] with [size] and one descriptor, a [tuple] without attribute
    and with one descriptor or more. *)
Fixpoint descriptor_schema (t : xml_text) : bool :=
  let 'Tag s _ c := t in
  if String.eqb s const_primitive then
    keys_are [const_name; const_size] t
    && match c with [] => true | _ => false end
  else if String.eqb s const_vector then
    keys_are [const_size] t
    && match c with [_] => true | _ => false end
    && forallb descriptor_schema c
  else if String.eqb s const_tuple then
    keys_are [] t
    && match c with [] => false | _ => true end
    && forallb descriptor_schema c
  else false.

(** The shape of a top-level entry: a [data_type] with [name] and one
    descriptor. *)
Definition entry_schema (t : xml_text) : bool :=
  String.eqb (tag_name t) const_data_type
  && keys_are [const_name] t
  && match tag_children t with
     | [d] => descriptor_schema d
     | _ => false
     end.

(** All characters are white space. *)
Fixpoint all_space (s : string) : bool :=
  match s with
  | EmptyString => true
  | String c s' => is_space c && all_space s'
  end.

(** ** Decimal round trip *)

Lemma digit_char_code (d : N) : d < 10 -> N_of_ascii (digit_char d) = 48 + d.
Proof.
  intros Hd. unfold digit_char. apply N_ascii_embedding. lia.
Qed.

Lemma digit_char_is_digit (d : N) : d < 10 -> is_digit (digit_char d) = true.
Proof.
  intros Hd. unfold is_digit. rewrite (digit_char_code d Hd).
  apply andb_true_intro; split; apply N.leb_le; lia.
Qed.

Lemma is_digit_not_space (c : ascii) : is_digit c = true -> is_space c = false.
Proof.
  unfold is_digit, is_space. intros Hc.
  apply andb_prop in Hc. destruct Hc as [Hlo Hhi].
  apply N.leb_le in Hlo. apply N.leb_le in Hhi.
  apply orb_false_intro.
  - apply N.eqb_neq. lia.
  - apply andb_false_intro2. apply N.leb_gt. lia.
Qed.

(** The text produced by [to_chars] starts with a digit. *)
Lemma to_chars_head (fuel : nat) :
  forall n acc, exists c s,
    to_chars fuel n acc = String c s /\ is_digit c = true.
Proof.
  induction fuel as [|fuel IH]; intros n acc; simpl.
  - eexists _, _; split; [reflexivity|].
    apply digit_char_is_digit. apply N.mod_lt. lia.
  - destruct (n / 10 =? 0).
    + eexists _, _; split; [reflexivity|].
      apply digit_char_is_digit. apply N.mod_lt. lia.
    + apply IH.
Qed.

(** Reading the digits of [n] written in front of [acc] is reading [acc]
    from the value [n]. *)
Lemma digits_value_to_chars (fuel : nat) :
  forall n acc, n < 2 ^ N.of_nat (S fuel) ->
    digits_value (to_chars fuel n acc) 0 = digits_value acc n.
Proof.
  assert (Hlast : forall n acc, n < 10 ->
            digits_value (String (digit_char (n mod 10)) acc) 0
            = digits_value acc n).
  { intros n acc Hn. cbn [digits_value].
    rewrite digit_char_is_digit by (apply N.mod_lt; lia).
    rewrite digit_char_code by (apply N.mod_lt; lia).
    rewrite N.mod_small by exact Hn. f_equal. lia. }
  induction fuel as [|fuel IH]; intros n acc Hn.
  - simpl to_chars. apply Hlast. change (2 ^ N.of_nat 1) with 2 in Hn. lia.
  - simpl to_chars. destruct (N.eqb_spec (n / 10) 0) as [Hz|Hz].
    + apply Hlast.
      destruct (N.lt_ge_cases n 10) as [Hlt|Hge]; [exact Hlt|].
      exfalso. assert (1 <= n / 10) by (apply N.div_le_lower_bound; lia). lia.
    + rewrite IH.
      * cbn [digits_value].
        rewrite digit_char_is_digit by (apply N.mod_lt; lia).
        rewrite digit_char_code by (apply N.mod_lt; lia).
        f_equal. rewrite (N.add_comm 48), N.add_sub.
        symmetry. apply N.div_mod. discriminate.
      * rewrite Nnat.Nat2N.inj_succ in Hn |- *.
        rewrite N.pow_succ_r' in Hn.
        apply N.Div0.div_lt_upper_bound.
        assert (0 < 2 ^ N.succ (N.of_nat fuel)).
        { apply N.neq_0_lt_0. apply N.pow_nonzero. lia. }
        lia.
Qed.

Lemma digits_value_to_string (n : N) : digits_value (to_string n) 0 = n.
Proof.
  unfold to_string. rewrite digits_value_to_chars; [reflexivity|].
  rewrite Nnat.Nat2N.inj_succ, Nnat.N2Nat.id.
  destruct n as [|p]; [reflexivity|].
  apply N.log2_spec. lia.
Qed.

(** ** The builder *)

Section Builder.
Context `{Host}.

Lemma bind_Ok {A B} (m : M A) (k : A -> M B) (w w' : world) (a : A) :
  m w = (Ok a, w') -> bind m k w = k a w'.
Proof. intros E. unfold bind. rewrite E. reflexivity. Qed.

Lemma bind_Throw {A B} (m : M A) (k : A -> M B) (w w' : world) (e : exn) :
  m w = (Throw e, w') -> bind m k w = (Throw e, w').
Proof. intros E. unfold bind. rewrite E. reflexivity. Qed.

Lemma size_to_char_run (size : N) (tc : option TypeContainer) h fs :
  size_to_char size (mk_world tc h fs)
  = (Ok (mk_cstr (fst (new_char (N.of_nat (String.length (to_string size)) + 1) h))
                 (to_string size)),
     mk_world tc
       (snd (new_char (N.of_nat (String.length (to_string size)) + 1) h)) fs).
Proof.
  unfold size_to_char. cbn.
  destruct (new_char _ h). reflexivity.
Qed.

Lemma two_power_pos : 0 < 2 ^ size_bits.
Proof. apply N.neq_0_lt_0. apply N.pow_nonzero. discriminate. Qed.

Lemma size_pred_spec (n : N) :
  n <> 0 -> n <= SIZE_MAX -> size_pred n = n - 1.
Proof.
  intros Hn Hmax. unfold size_pred, SIZE_MAX in *.
  pose proof two_power_pos as Hpos.
  replace (n + (2 ^ size_bits - 1)) with (n - 1 + 1 * 2 ^ size_bits) by lia.
  rewrite N.Div0.mod_add. apply N.mod_small. lia.
Qed.

Lemma TypeContainer_get_started (w : world) :
  exists tc, instance (started w) = Some tc
             /\ TypeContainer_get w = (Ok tc, started w).
Proof.
  destruct w as [[tc|] h fs]; eexists; split; reflexivity.
Qed.

Lemma started_idem (w : world) : started (started w) = started w.
Proof. destruct w as [[tc|] h fs]; reflexivity. Qed.

Lemma add_node_started parent name rest (w : world) :
  add_node parent name rest (started w) = add_node parent name rest w.
Proof. destruct w as [[tc|] h fs]; reflexivity. Qed.

Lemma add_type_node_started T parent (w : world) :
  add_type_node T parent (started w) = add_type_node T parent w.
Proof. destruct T; apply add_node_started. Qed.

Lemma builds_started T (w : world) d w' :
  builds T (started w) d w' <-> builds T w d w'.
Proof.
  unfold builds. split; intros Hb parent; specialize (Hb parent).
  - rewrite <- add_type_node_started. exact Hb.
  - rewrite add_type_node_started. exact Hb.
Qed.

(** The tuple case of [add_type_node] is [traverse_tuple] at the arity. *)
Lemma add_type_node_tuple Ts parent :
  add_type_node (TTuple Ts) parent
  = add_node parent const_tuple
             (traverse_tuple (N.of_nat (length Ts)) Ts).
Proof. reflexivity. Qed.

Lemma view_append_node parent d :
  view (append_node parent d)
  = Tag (n_name parent)
        (map (fun x => (a_name x, c_text (a_value x))) (n_attributes parent))
        (map view (n_children parent) ++ [view d]).
Proof.
  destruct parent as [t s a c]. simpl. rewrite map_app. reflexivity.
Qed.

Lemma fold_left_append_node t s a ds :
  forall c,
    fold_left append_node ds (mk_node t s a c) = mk_node t s a (c ++ ds).
Proof.
  induction ds as [|d ds IH]; intros c; simpl.
  - rewrite app_nil_r. reflexivity.
  - rewrite IH, <- app_assoc. reflexivity.
Qed.

(** [traverse_tuple] over a pack whose components can all be built: the
    nodes are linked under the parent one after the other. *)
Lemma traverse_tuple_builds (tc : TypeContainer) fs :
  forall Tup,
    Forall (fun T => forall h, exists d h',
              builds T (mk_world (Some tc) h fs) d (mk_world (Some tc) h' fs)
              /\ view d = spec_descriptor T) Tup ->
    Tup <> [] -> N.of_nat (length Tup) <= SIZE_MAX ->
    forall h, exists ds h',
      builds_all Tup (mk_world (Some tc) h fs) ds (mk_world (Some tc) h' fs)
      /\ map view ds = map spec_descriptor Tup
      /\ forall parent,
           traverse_tuple (N.of_nat (length Tup)) Tup parent
                          (mk_world (Some tc) h fs)
           = (Ok (fold_left append_node ds parent), mk_world (Some tc) h' fs).
Proof.
  induction 1 as [|Head Tail HHead HTail IH]; intros Hne Hlen h.
  - congruence.
  - destruct (HHead h) as (d & h1 & Hd & Hview).
    destruct Tail as [|T2 Tail'].
    + exists [d], h1. split; [|split].
      * econstructor; [exact Hd|constructor].
      * simpl. rewrite Hview. reflexivity.
      * intros parent. simpl. apply Hd.
    + destruct IH with (h := h1) as (ds & h2 & Hall & Hviews & Hrun).
      * discriminate.
      * cbn [length] in *. lia.
      * exists (d :: ds), h2. split; [|split].
        -- econstructor; eassumption.
        -- simpl. rewrite Hview. simpl in Hviews. rewrite Hviews. reflexivity.
        -- intros parent.
           change (traverse_tuple (N.of_nat (length (Head :: T2 :: Tail')))
                     (Head :: T2 :: Tail') parent)
             with (if N.of_nat (length (Head :: T2 :: Tail')) =? 1
                   then add_type_node Head parent
                   else bind (add_type_node Head parent)
                          (traverse_tuple
                             (size_pred (N.of_nat (length (Head :: T2 :: Tail'))))
                             (T2 :: Tail'))).
           destruct (N.eqb_spec (N.of_nat (length (Head :: T2 :: Tail'))) 1)
             as [E|E].
           { cbn [length] in E. lia. }
           rewrite size_pred_spec; [|cbn [length]; lia|exact Hlen].
           replace (N.of_nat (length (Head :: T2 :: Tail')) - 1)
             with (N.of_nat (length (T2 :: Tail'))) by (cbn [length]; lia).
           erewrite bind_Ok by apply Hd. rewrite Hrun.
           destruct parent; reflexivity.
Qed.

(** Every instantiable type is built, whatever the parent: one node is
    linked, its text is the descriptor of the specification, and only the
    free store has changed. *)
Lemma add_type_node_builds (tc : TypeContainer) fs :
  forall T, instantiable T = true ->
    forall h, exists d h',
      builds T (mk_world (Some tc) h fs) d (mk_world (Some tc) h' fs)
      /\ view d = spec_descriptor T.
Proof.
  induction T as [p|u|T IH|Ts IH] using ctype_nested_ind; intros Hinst h.
  - eexists _, _. split.
    + intros parent. cbn [add_type_node]. unfold add_node.
      erewrite bind_Ok by reflexivity.
      erewrite bind_Ok;
        [|erewrite bind_Ok by reflexivity;
          erewrite bind_Ok by apply size_to_char_run; reflexivity].
      reflexivity.
    + reflexivity.
  - eexists _, _. split.
    + intros parent. cbn [add_type_node]. unfold add_node.
      erewrite bind_Ok by reflexivity.
      erewrite bind_Ok;
        [|erewrite bind_Ok by reflexivity;
          erewrite bind_Ok by apply size_to_char_run; reflexivity].
      reflexivity.
    + reflexivity.
  - destruct (IH Hinst h) as (d & h1 & Hd & Hview).
    eexists _, _. split.
    + intros parent. cbn [add_type_node]. unfold add_node.
      erewrite bind_Ok by reflexivity.
      erewrite bind_Ok;
        [|erewrite bind_Ok by apply Hd;
          erewrite bind_Ok by apply size_to_char_run; reflexivity].
      reflexivity.
    + cbn. rewrite Hview. reflexivity.
  - cbn [instantiable] in Hinst.
    apply andb_prop in Hinst. destruct Hinst as [Hinst Hall].
    apply andb_prop in Hinst. destruct Hinst as [Hlo Hhi].
    apply N.leb_le in Hlo. apply N.leb_le in Hhi.
    assert (Hforall : Forall (fun T => forall h, exists d h',
              builds T (mk_world (Some tc) h fs) d (mk_world (Some tc) h' fs)
              /\ view d = spec_descriptor T) Ts).
    { rewrite forallb_forall in Hall. rewrite Forall_forall in IH |- *.
      intros T HT. apply IH; [exact HT|]. apply Hall. exact HT. }
    destruct (traverse_tuple_builds tc fs Ts Hforall) with (h := h)
      as (ds & h' & _ & Hviews & Hrun).
    + destruct Ts; [simpl in Hlo; lia|discriminate].
    + exact Hhi.
    + exists (mk_node node_element const_tuple [] ds), h'. split.
      * intros parent. rewrite add_type_node_tuple. unfold add_node.
        erewrite bind_Ok by reflexivity.
        erewrite bind_Ok by apply Hrun. unfold ret.
        f_equal. f_equal. f_equal. apply fold_left_append_node.
      * cbn. rewrite Hviews. reflexivity.
Qed.

End Builder.

(** ** Registration *)

Section Registration.
Context `{Host}.

Lemma first_attribute_entry (T : ctype) (e : xml_node) :
  entry_for T e ->
  first_attribute const_name e
  = Some (mk_attribute const_name (get_type_name T)).
Proof. intros (d & -> & _). reflexivity. Qed.

(** Over a catalogue the scan dereferences no null pointer and answers
    whether some entry holds the very pointer asked for. *)
Lemma traverse_scan_entries (type_name : cstr) (w : world) :
  forall Rs E, Forall2 entry_for Rs E ->
    traverse_scan type_name E w
    = (Ok (existsb (fun R => name_addr R =? c_addr type_name) Rs), w).
Proof.
  induction 1 as [|R e Rs E He HE IH]; [reflexivity|].
  cbn [traverse_scan existsb]. rewrite (first_attribute_entry R e He).
  unfold ptr_eqb. cbn [a_value]. fold (name_addr R).
  destruct (name_addr R =? c_addr type_name); [reflexivity|exact IH].
Qed.

Lemma traverse_started (T : ctype) (w : world) :
  traverse T (started w) = traverse T w.
Proof. destruct w as [[tc|] h fs]; reflexivity. Qed.

Lemma catalogue_fresh_started h fs : catalogue [] (started (fresh h fs)).
Proof. eexists. split; [reflexivity|constructor]. Qed.

(** A call for a type whose name pointer is in the catalogue returns that
    pointer and changes nothing at all. *)
Lemma traverse_found (T : ctype) (Rs : list ctype) (w : world) :
  catalogue Rs w ->
  existsb (fun R => name_addr R =? name_addr T) Rs = true ->
  traverse T w = (Ok (get_type_name T), w).
Proof.
  intros (E & Hinst & HE) Hfound.
  destruct w as [i h fs]. cbn in Hinst. subst i.
  unfold traverse. erewrite bind_Ok by reflexivity.
  erewrite bind_Ok by (apply (traverse_scan_entries _ _ _ _ HE)).
  fold (name_addr T). rewrite Hfound. reflexivity.
Qed.

(** A call for a type whose name pointer is not in the catalogue links one
    new entry after the others; the files are as they were. *)
Lemma traverse_new (T : ctype) (Rs : list ctype) (w : world) :
  catalogue Rs w -> instantiable T = true ->
  existsb (fun R => name_addr R =? name_addr T) Rs = false ->
  exists w',
    traverse T w = (Ok (get_type_name T), w')
    /\ catalogue (Rs ++ [T]) w' /\ files w' = files w.
Proof.
  intros (E & Hinst & HE) HT Hfound.
  destruct w as [i h fs]. cbn in Hinst. subst i.
  destruct (add_type_node_builds
              (mk_container (mk_node node_element const_root_type [] E))
              fs T HT h) as (d & h' & Hd & Hview).
  eexists. split; [|split].
  - unfold traverse. erewrite bind_Ok by reflexivity.
    erewrite bind_Ok by (apply (traverse_scan_entries _ _ _ _ HE)).
    fold (name_addr T). rewrite Hfound.
    erewrite bind_Ok.
    2:{ unfold add_node. erewrite bind_Ok by reflexivity.
        erewrite bind_Ok
          by (erewrite bind_Ok by reflexivity; apply Hd).
        reflexivity. }
    erewrite bind_Ok by reflexivity. reflexivity.
  - eexists. split; [reflexivity|].
    apply Forall2_app; [exact HE|].
    constructor; [|constructor].
    exists d. split; [reflexivity|exact Hview].
  - reflexivity.
Qed.

Lemma existsb_name_addr (a : N) (Rs : list ctype) (seen : list N) :
  (forall x, In x seen <-> In x (map name_addr Rs)) ->
  existsb (fun R => name_addr R =? a) Rs = existsb (N.eqb a) seen.
Proof.
  intros Hseen.
  destruct (existsb (N.eqb a) seen) eqn:E.
  - apply existsb_exists in E. destruct E as (x & Hx & Hax).
    apply N.eqb_eq in Hax. subst x.
    apply Hseen, in_map_iff in Hx. destruct Hx as (R & HR & HIn).
    apply existsb_exists. exists R. split; [exact HIn|].
    apply N.eqb_eq. exact HR.
  - destruct (existsb (fun R => name_addr R =? a) Rs) eqn:E'; [|reflexivity].
    apply existsb_exists in E'. destruct E' as (R & HIn & HR).
    apply N.eqb_eq in HR.
    assert (Hin : In a seen).
    { apply Hseen, in_map_iff. exists R. split; assumption. }
    assert (Ht : existsb (N.eqb a) seen = true).
    { apply existsb_exists. exists a. split; [exact Hin|apply N.eqb_refl]. }
    congruence.
Qed.

(** A sequence of calls from a catalogue: the types met for the first time,
    by name pointer, get their entries in call order. *)
Lemma traverse_all_catalogue :
  forall Ts Rs seen (w : world),
    catalogue Rs w -> forallb instantiable Ts = true ->
    (forall x, In x seen <-> In x (map name_addr Rs)) ->
    exists w',
      traverse_all Ts w = (Ok tt, w')
      /\ catalogue (Rs ++ first_calls seen Ts) w' /\ files w' = files w.
Proof.
  induction Ts as [|T Ts IH]; intros Rs seen w Hcat Hinst Hseen.
  - exists w. rewrite app_nil_r. repeat split; [exact Hcat].
  - cbn [forallb] in Hinst. apply andb_prop in Hinst.
    destruct Hinst as [HT HTs].
    cbn [traverse_all first_calls]. fold (name_addr T).
    rewrite <- (existsb_name_addr (name_addr T) Rs seen Hseen).
    destruct (existsb (fun R => name_addr R =? name_addr T) Rs) eqn:Hfound.
    + destruct (IH Rs seen w Hcat HTs Hseen) as (w' & Hrun & Hcat' & Hfs).
      exists w'. split; [|split; assumption].
      erewrite bind_Ok by (apply (traverse_found T Rs w Hcat Hfound)). exact Hrun.
    + destruct (traverse_new T Rs w Hcat HT Hfound) as (w1 & Hrun1 & Hcat1 & Hfs1).
      destruct (IH (Rs ++ [T])%list (name_addr T :: seen) w1 Hcat1 HTs)
        as (w' & Hrun & Hcat' & Hfs).
      { intros x. rewrite map_app, in_app_iff. cbn.
        rewrite Hseen. tauto. }
      exists w'. split; [|split].
      * erewrite bind_Ok by exact Hrun1. exact Hrun.
      * rewrite <- app_assoc in Hcat'. exact Hcat'.
      * congruence.
Qed.

(** The same from the start of the process. *)
Lemma traverse_all_fresh (Ts : list ctype) h fs :
  forallb instantiable Ts = true ->
  exists w',
    traverse_all Ts (fresh h fs) = (Ok tt, w')
    /\ Forall2 entry_for (first_calls [] Ts) (entries w')
    /\ (Ts <> [] -> catalogue (first_calls [] Ts) w')
    /\ files w' = fs.
Proof.
  intros Hinst. destruct Ts as [|T Ts].
  - exists (fresh h fs). repeat split; [constructor|congruence].
  - destruct (traverse_all_catalogue (T :: Ts) [] [] (started (fresh h fs)))
      as (w' & Hrun & Hcat & Hfs).
    + apply catalogue_fresh_started.
    + exact Hinst.
    + intros x. reflexivity.
    + exists w'. split; [|split; [|split]].
      * cbn [traverse_all] in Hrun |- *. unfold bind in Hrun |- *.
        rewrite traverse_started in Hrun. exact Hrun.
      * destruct Hcat as (E & Hi & HE). unfold entries. rewrite Hi. exact HE.
      * intros _. exact Hcat.
      * exact Hfs.
Qed.

Lemma started_catalogue (Rs : list ctype) (w : world) :
  catalogue Rs w -> started w = w.
Proof.
  intros (E & Hi & _). destruct w as [i h fs]. cbn in Hi |- *.
  rewrite Hi. reflexivity.
Qed.

Lemma reachable_cases (w : world) :
  reachable w ->
  (exists h fs, w = fresh h fs) \/ (exists Rs, catalogue Rs w).
Proof.
  intros (Ts & h & fs & w0 & Hinst & Hrun & Hw).
  destruct (traverse_all_fresh Ts h fs Hinst) as (w' & Hrun' & _ & Hcat & _).
  rewrite Hrun in Hrun'. inversion Hrun'; subst w'.
  destruct Ts as [|T Ts].
  - cbn in Hrun. inversion Hrun; subst w0.
    destruct Hw as [->| ->].
    + left. exists h, fs. reflexivity.
    + right. exists []. apply catalogue_fresh_started.
  - assert (Hc : catalogue (first_calls [] (T :: Ts)) w0)
      by (apply Hcat; discriminate).
    right. eexists.
    destruct Hw as [->| ->]; [|rewrite (started_catalogue _ _ Hc)]; exact Hc.
Qed.

(** The name pointers of the entries a call sequence creates are pairwise
    different, and none of them was seen before. *)
Lemma first_calls_NoDup :
  forall Ts seen,
    NoDup (map name_addr (first_calls seen Ts))
    /\ forall T, In T (first_calls seen Ts) -> ~ In (name_addr T) seen.
Proof.
  induction Ts as [|T Ts IH]; intros seen; cbn [first_calls].
  - split; [constructor|contradiction].
  - fold (name_addr T).
    destruct (existsb (N.eqb (name_addr T)) seen) eqn:E.
    + apply IH.
    + destruct (IH (name_addr T :: seen)) as [Hnd Hnot]. split.
      * cbn. constructor; [|exact Hnd].
        intros Hin. apply in_map_iff in Hin.
        destruct Hin as (R & HR & HIn).
        apply (Hnot R HIn). left. symmetry. exact HR.
      * intros R [<-|HIn].
        -- intros Hin.
           assert (Ht : existsb (N.eqb (name_addr T)) seen = true).
           { apply existsb_exists. eexists. split; [exact Hin|apply N.eqb_refl]. }
           congruence.
        -- intros Hin. apply (Hnot R HIn). right. exact Hin.
Qed.

Lemma first_calls_incl :
  forall Ts seen T, In T (first_calls seen Ts) -> In T Ts.
Proof.
  induction Ts as [|T' Ts IH]; intros seen T; cbn [first_calls].
  - contradiction.
  - destruct (existsb _ seen).
    + intros HIn. right. eapply IH. exact HIn.
    + intros [<-|HIn]; [left; reflexivity|right; eapply IH; exact HIn].
Qed.

(** Every type of the sequence has its name pointer among the entries or
    among the pointers seen before. *)
Lemma first_calls_covers :
  forall Ts seen T, In T Ts ->
    In (name_addr T) seen
    \/ In (name_addr T) (map name_addr (first_calls seen Ts)).
Proof.
  induction Ts as [|T' Ts IH]; intros seen T; [contradiction|].
  cbn [first_calls]. fold (name_addr T').
  destruct (existsb (N.eqb (name_addr T')) seen) eqn:E.
  - intros [<-|HIn].
    + left. apply existsb_exists in E. destruct E as (x & Hx & Hax).
      apply N.eqb_eq in Hax. subst x. exact Hx.
    + apply IH. exact HIn.
  - intros [<-|HIn].
    + right. left. reflexivity.
    + destruct (IH (name_addr T' :: seen) T HIn) as [[Heq|Hs]|Hin].
      * right. left. exact Heq.
      * left. exact Hs.
      * right. right. exact Hin.
Qed.

Lemma entry_name_for (T : ctype) (e : xml_node) :
  entry_for T e -> entry_name e = Some (get_type_name T).
Proof.
  intros He. unfold entry_name.
  rewrite (first_attribute_entry T e He). reflexivity.
Qed.

Lemma view_entry_for (T : ctype) (e : xml_node) :
  entry_for T e -> view e = spec_entry T.
Proof. intros (d & -> & Hview). cbn. rewrite Hview. reflexivity. Qed.

Lemma Forall2_map_eq {A B C} (f : A -> C) (g : B -> C) (R : A -> B -> Prop) :
  (forall a b, R a b -> f a = g b) ->
  forall l l', Forall2 R l l' -> map f l = map g l'.
Proof.
  intros Hfg. induction 1 as [|a b l l' Hab _ IH]; [reflexivity|].
  cbn. rewrite (Hfg a b Hab), IH. reflexivity.
Qed.

Lemma holds_pointer_catalogue (a : N) (Rs : list ctype) (w : world) :
  catalogue Rs w ->
  holds_pointer a w = existsb (fun R => name_addr R =? a) Rs.
Proof.
  intros (E & Hi & HE). unfold holds_pointer, entries. rewrite Hi.
  cbn [root root_node n_children]. clear Hi.
  induction HE as [|R e Rs E He _ IH]; [reflexivity|].
  cbn [existsb]. rewrite (entry_name_for R e He), IH. reflexivity.
Qed.

Lemma entries_catalogue (Rs : list ctype) (w : world) :
  catalogue Rs w -> map view (entries w) = map spec_entry Rs.
Proof.
  intros (E & Hi & HE). unfold entries. rewrite Hi.
  cbn [root root_node n_children]. symmetry.
  apply (Forall2_map_eq spec_entry view entry_for); [|exact HE].
  intros T e He. symmetry. apply view_entry_for. exact He.
Qed.

(** The first call of a process: one entry, whose text is the entry of
    the specification. *)
Lemma traverse_fresh (T : ctype) h fs :
  instantiable T = true ->
  exists w',
    traverse T (fresh h fs) = (Ok (get_type_name T), w')
    /\ map view (entries w') = [spec_entry T]
    /\ files w' = fs.
Proof.
  intros HT.
  destruct (traverse_new T [] (started (fresh h fs)))
    as (w' & Hrun & Hcat & Hfs);
    [apply catalogue_fresh_started|exact HT|reflexivity|].
  rewrite traverse_started in Hrun.
  exists w'. split; [exact Hrun|]. split; [|exact Hfs].
  apply (entries_catalogue _ _ Hcat).
Qed.

End Registration.

(** ** Sizes *)

Section Sizes.
Context `{Host}.

Lemma extract_size_to_string (n : N) :
  n < 2 ^ size_bits -> extract_size (to_string n) = n.
Proof.
  intros Hn. unfold extract_size.
  destruct (to_chars_head (N.to_nat (N.log2 n)) n "") as (c & s & Hs & Hc).
  fold (to_string n) in Hs.
  pose proof (digits_value_to_string n) as Hv.
  rewrite Hs in Hv |- *. cbn [skip_ws].
  rewrite (is_digit_not_space c Hc).
  assert (Hcode : 48 <= N_of_ascii c).
  { unfold is_digit in Hc. apply andb_prop in Hc. apply N.leb_le. apply Hc. }
  destruct (N.eqb_spec (N_of_ascii c) 45) as [E|_]; [lia|].
  destruct (N.eqb_spec (N_of_ascii c) 43) as [E|_]; [lia|].
  cbn [starts_with_digit]. rewrite Hc, Hv.
  destruct (N.ltb_spec SIZE_MAX n) as [Hlt|_]; [|reflexivity].
  unfold SIZE_MAX in Hlt. lia.
Qed.

(** C10.  The decimal text that [size_to_char] produces for a value [n] of
    the host's size type is read back by [char_to_size] as [n]. *)
Theorem size_round_trip (n : N) (w : world) :
  n < 2 ^ size_bits ->
  exists s w', size_to_char n w = (Ok s, w') /\ char_to_size s = n.
Proof.
  intros Hn. destruct w as [i h fs].
  eexists _, _. split; [apply size_to_char_run|].
  unfold char_to_size. cbn [c_text]. apply extract_size_to_string. exact Hn.
Qed.

End Sizes.

Lemma size_round_trip_witness :
  24 < 2 ^ @size_bits demo_host
  /\ exists s w',
       @size_to_char demo_host 24 (demo_world _) = (Ok s, w')
       /\ @char_to_size demo_host s = 24.
Proof.
  split; [reflexivity|].
  apply (@size_round_trip demo_host 24 (demo_world _)). reflexivity.
Defined.

(** ** Descriptors *)

Section Descriptors.
Context `{Host}.

Lemma add_type_node_builds_any (T : ctype) (w : world) :
  instantiable T = true ->
  exists d h',
    builds T w d (mk_world (instance (started w)) h' (files w))
    /\ view d = spec_descriptor T.
Proof.
  intros HT. destruct w as [[tc|] h fs].
  - apply (add_type_node_builds tc fs T HT h).
  - destruct (add_type_node_builds TypeContainer_new fs T HT h)
      as (d & h' & Hd & Hview).
    exists d, h'. split; [|exact Hview].
    apply builds_started. exact Hd.
Qed.

(** C3.  For an element type [T] that can be built, [add_type_node] for
    [Vector<T>] links one [vector] element; its only attribute is [size],
    whose text is the decimal [sizeof(Vector<T>)], the footprint of the
    handle; its only child is the node [d] that [add_type_node<T>] links,
    whose text is the descriptor of [T].  Registered first in a process,
    [Vector<T>] gets the entry that holds exactly this element. *)
Theorem vector_descriptor (T : ctype) (w : world) :
  instantiable T = true ->
  (exists d w1 size w2,
     builds T w d w1
     /\ view d = spec_descriptor T
     /\ size_to_char (sizeof (TVector T)) w1 = (Ok size, w2)
     /\ c_text size = to_string (sizeof (TVector T))
     /\ builds (TVector T) w
          (mk_node node_element const_vector
                   [mk_attribute const_size size] [d]) w2)
  /\ forall h fs, exists w',
       traverse (TVector T) (fresh h fs)
       = (Ok (get_type_name (TVector T)), w')
       /\ map view (entries w')
          = [Tag const_data_type
               [(const_name, name_text (TVector T))]
               [Tag const_vector
                  [(const_size, to_string (sizeof (TVector T)))]
                  [spec_descriptor T]]].
Proof.
  intros HT. split.
  2:{ intros h fs.
      destruct (traverse_fresh (TVector T) h fs HT) as (w' & Hrun & Hview & _).
      exists w'. split; [exact Hrun|exact Hview]. }
  destruct (add_type_node_builds_any T w HT) as (d & h1 & Hd & Hview).
  exists d. eexists. eexists. eexists.
  split; [exact Hd|]. split; [exact Hview|].
  split; [apply size_to_char_run|]. split; [reflexivity|].
  intros parent. cbn [add_type_node]. unfold add_node.
  destruct (TypeContainer_get_started w) as (tc & Htc & Hget).
  erewrite bind_Ok by exact Hget.
  erewrite bind_Ok;
    [|erewrite bind_Ok by (rewrite add_type_node_started; apply Hd);
      erewrite bind_Ok by apply size_to_char_run; reflexivity].
  reflexivity.
Qed.

Lemma builds_all_started (Ts : list ctype) (w : world) ds w' :
  Ts <> [] -> builds_all Ts (started w) ds w' -> builds_all Ts w ds w'.
Proof.
  intros Hne Hall. inversion Hall; subst; [congruence|].
  econstructor; [|eassumption]. apply builds_started. assumption.
Qed.

Lemma builds_all_length (Ts : list ctype) (w : world) ds w' :
  builds_all Ts w ds w' -> length ds = length Ts.
Proof. induction 1; simpl; congruence. Qed.

(** C4.  For a tuple type of one or more components that can be built,
    [add_type_node] links one [tuple] element without any attribute, so
    without a size; its children are the nodes that [add_type_node] links
    for the components, taken one after the other in declaration order, and
    their texts are the components' descriptors in that order.  Registered
    first in a process, the tuple gets the entry that holds exactly this
    element. *)
Theorem tuple_descriptor (Ts : list ctype) (w : world) :
  instantiable (TTuple Ts) = true ->
  (exists ds w',
     builds_all Ts w ds w'
     /\ length ds = length Ts
     /\ map view ds = map spec_descriptor Ts
     /\ builds (TTuple Ts) w (mk_node node_element const_tuple [] ds) w'
     /\ first_attribute const_size (mk_node node_element const_tuple [] ds)
        = None)
  /\ forall h fs, exists w',
       traverse (TTuple Ts) (fresh h fs) = (Ok (get_type_name (TTuple Ts)), w')
       /\ map view (entries w')
          = [Tag const_data_type
               [(const_name, name_text (TTuple Ts))]
               [Tag const_tuple [] (map spec_descriptor Ts)]].
Proof.
  intros HT. split.
  2:{ intros h fs.
      destruct (traverse_fresh (TTuple Ts) h fs HT) as (w' & Hrun & Hview & _).
      exists w'. split; [exact Hrun|exact Hview]. }
  cbn [instantiable] in HT.
  apply andb_prop in HT. destruct HT as [HT Hall].
  apply andb_prop in HT. destruct HT as [Hlo Hhi].
  apply N.leb_le in Hlo. apply N.leb_le in Hhi.
  assert (Hne : Ts <> []) by (destruct Ts; [simpl in Hlo; lia|discriminate]).
  destruct (TypeContainer_get_started w) as (tc & Htc & Hget).
  assert (Hw : started w = mk_world (Some tc) (store w) (files w)).
  { unfold started in Htc |- *. cbn in Htc. congruence. }
  destruct (traverse_tuple_builds tc (files w) Ts) with (h := store w)
    as (ds & h' & Hbuilds & Hviews & Hrun).
  - rewrite forallb_forall in Hall. apply Forall_forall.
    intros T HIn h. apply add_type_node_builds. apply Hall. exact HIn.
  - exact Hne.
  - exact Hhi.
  - rewrite <- Hw in Hbuilds, Hrun.
    exists ds. eexists. split; [|split; [|split; [|split]]].
    + apply builds_all_started; [exact Hne|exact Hbuilds].
    + eapply builds_all_length. exact Hbuilds.
    + exact Hviews.
    + intros parent. rewrite add_type_node_tuple. unfold add_node.
      erewrite bind_Ok by exact Hget.
      erewrite bind_Ok by apply Hrun. unfold ret.
      f_equal. f_equal. f_equal. apply fold_left_append_node.
    + reflexivity.
Qed.

End Descriptors.

Lemma vector_descriptor_witness :
  @instantiable demo_host (TTuple [TPrim p_char; TPrim p_double]) = true
  /\ exists d w1 size w2,
       @builds demo_host (TTuple [TPrim p_char; TPrim p_double])
               (demo_world _) d w1
       /\ view d
          = @spec_descriptor demo_host (TTuple [TPrim p_char; TPrim p_double])
       /\ @size_to_char demo_host
            (@sizeof demo_host
               (TVector (TTuple [TPrim p_char; TPrim p_double]))) w1
          = (Ok size, w2)
       /\ c_text size
          = to_string (@sizeof demo_host
                         (TVector (TTuple [TPrim p_char; TPrim p_double])))
       /\ @builds demo_host
            (TVector (TTuple [TPrim p_char; TPrim p_double])) (demo_world _)
            (mk_node node_element const_vector
                     [mk_attribute const_size size] [d]) w2.
Proof.
  split; [reflexivity|].
  apply (@vector_descriptor demo_host
           (TTuple [TPrim p_char; TPrim p_double]) (demo_world _)).
  reflexivity.
Defined.

Lemma tuple_descriptor_witness :
  @instantiable demo_host (TTuple [TPrim p_int; TPrim p_float; TPrim p_bool])
  = true
  /\ exists ds w',
       @builds_all demo_host [TPrim p_int; TPrim p_float; TPrim p_bool]
                   (demo_world _) ds w'
       /\ length ds = 3%nat
       /\ map view ds
          = map (@spec_descriptor demo_host)
                [TPrim p_int; TPrim p_float; TPrim p_bool]
       /\ @builds demo_host
            (TTuple [TPrim p_int; TPrim p_float; TPrim p_bool]) (demo_world _)
            (mk_node node_element const_tuple [] ds) w'
       /\ first_attribute const_size (mk_node node_element const_tuple [] ds)
          = None.
Proof.
  split; [reflexivity|].
  apply (@tuple_descriptor demo_host
           [TPrim p_int; TPrim p_float; TPrim p_bool] (demo_world _)).
  reflexivity.
Defined.

(** The tuple of [int], [float] and [bool] on the example host: the name
    returned and the entry, as text. *)
Example tuple_int_float_bool :
  let run :=
    @traverse demo_host (TTuple [TPrim p_int; TPrim p_float; TPrim p_bool])
              (demo_world _) in
  result_text (fst run) = Some "TifbE"
  /\ map view (@entries demo_host (snd run))
     = [Tag "data_type" [("name", "TifbE")]
          [Tag "tuple" []
             [Tag "primitive" [("name", "int"); ("size", "4")] [];
              Tag "primitive" [("name", "float"); ("size", "4")] [];
              Tag "primitive" [("name", "bool"); ("size", "1")] []]]].
Proof. split; vm_compute; reflexivity. Qed.

(** A vector of a pair of [char] and [double]. *)
Example vector_of_char_double :
  let run :=
    @traverse demo_host (TVector (TTuple [TPrim p_char; TPrim p_double]))
              (demo_world _) in
  result_text (fst run) = Some "VTcdEE"
  /\ map view (@entries demo_host (snd run))
     = [Tag "data_type" [("name", "VTcdEE")]
          [Tag "vector" [("size", "24")]
             [Tag "tuple" []
                [Tag "primitive" [("name", "char"); ("size", "1")] [];
                 Tag "primitive" [("name", "double"); ("size", "8")] []]]]].
Proof. split; vm_compute; reflexivity. Qed.

(** ** Writing the document *)

Section Writing.
Context `{Host}.

Lemma file_content_set_file (path content : string) fs :
  file_content path (set_file path content fs) = Some content.
Proof.
  unfold file_content, set_file. cbn [find fst snd].
  rewrite String.eqb_refl. reflexivity.
Qed.

Lemma entries_started (w : world) : entries (started w) = entries w.
Proof. destruct w as [[tc|] h fs]; reflexivity. Qed.

Lemma started_some (w : world) (tc : TypeContainer) :
  instance w = Some tc -> started w = w.
Proof. destruct w as [i h fs]. cbn. intros ->. reflexivity. Qed.

(** Where the path cannot be opened, the report carries the path, and the
    world is the one [TypeContainer::get()] left. *)
Lemma flush_closed (path : string) (w : world) :
  can_open path = false ->
  flush path w = (Throw (sc_report path not_opened), started w).
Proof.
  intros Hopen.
  destruct (TypeContainer_get_started w) as (tc & Htc & Hget).
  unfold flush. erewrite bind_Ok by exact Hget.
  unfold printXML.
  erewrite bind_Ok by (unfold ofstream_open; rewrite Hopen; reflexivity).
  reflexivity.
Qed.

(** Where it can, the file holds the two fixed lines and the printed
    document, and nothing else of the world has changed. *)
Lemma flush_open (path : string) (w : world) :
  can_open path = true ->
  exists tc w',
    instance (started w) = Some tc
    /\ flush path w = (Ok tt, w')
    /\ instance w' = Some tc /\ store w' = store w
    /\ file_content path (files w') = Some (written tc).
Proof.
  intros Hopen.
  destruct (TypeContainer_get_started w) as (tc & Htc & Hget).
  exists tc. eexists. split; [exact Htc|]. split.
  - unfold flush. erewrite bind_Ok by exact Hget.
    unfold printXML.
    erewrite bind_Ok by (unfold ofstream_open; rewrite Hopen; reflexivity).
    erewrite bind_Ok by reflexivity.
    erewrite bind_Ok
      by (unfold ofstream_put; cbn [files];
          rewrite file_content_set_file; reflexivity).
    erewrite bind_Ok
      by (unfold ofstream_put; cbn [files];
          rewrite file_content_set_file; reflexivity).
    unfold ofstream_put. cbn [files instance store].
    rewrite file_content_set_file. reflexivity.
  - cbn [instance store files]. split; [exact Htc|]. split; [reflexivity|].
    rewrite file_content_set_file. reflexivity.
Qed.

(** C7.  A flush to a path that cannot be opened raises the report whose
    message type is that path.  It leaves the world as it was but for the
    singleton being constructed if this was the first call: entries, free
    store and files are unchanged, every later [traverse] behaves as
    before, and a flush to a path that can be opened writes the two fixed
    lines and the printed document whose root holds all the entries
    registered before. *)
Theorem flush_failure_keeps_catalogue (bad good : string) (w : world) :
  can_open bad = false -> can_open good = true ->
  flush bad w = (Throw (sc_report bad not_opened), started w)
  /\ entries (started w) = entries w
  /\ store (started w) = store w
  /\ files (started w) = files w
  /\ (forall tc, instance w = Some tc -> started w = w)
  /\ (forall T, traverse T (started w) = traverse T w)
  /\ exists tc w',
       instance (started w) = Some tc
       /\ n_children (root tc) = entries w
       /\ flush good (started w) = (Ok tt, w')
       /\ entries w' = entries w
       /\ file_content good (files w') = Some (written tc)
       /\ file_content good (files w')
          = Some (((xml_declaration ++ endl) ++ (generated_by ++ endl))
                  ++ print (mk_node node_document "" [] [root tc])).
Proof.
  intros Hbad Hgood.
  split; [apply flush_closed; exact Hbad|].
  split; [apply entries_started|].
  split; [reflexivity|]. split; [reflexivity|].
  split; [apply started_some|].
  split; [intros T; apply traverse_started|].
  destruct (flush_open good (started w) Hgood)
    as (tc & w' & Htc & Hrun & Hinst & _ & Hfile).
  rewrite started_idem in Htc.
  exists tc, w'. split; [exact Htc|].
  assert (Hentries : n_children (root tc) = entries w).
  { rewrite <- entries_started. unfold entries. rewrite Htc. reflexivity. }
  split; [exact Hentries|]. split; [exact Hrun|].
  split; [|split; exact Hfile].
  unfold entries at 1. rewrite Hinst. exact Hentries.
Qed.

(** C8.  Two flushes with no registration in between write the same
    characters, be it to one path or to two; and the flush of a process
    that has registered nothing writes the two fixed lines followed by the
    printed document whose only element is the root [forsyde_types],
    without attribute or child. *)
Theorem flush_deterministic (p1 p2 : string) (w : world) :
  can_open p1 = true -> can_open p2 = true ->
  exists w1 w2 out,
    flush p1 w = (Ok tt, w1)
    /\ flush p2 w1 = (Ok tt, w2)
    /\ file_content p1 (files w1) = Some out
    /\ file_content p2 (files w2) = Some out
    /\ entries w2 = entries w
    /\ (instance w = None \/ instance w = Some TypeContainer_new ->
        out = ((xml_declaration ++ endl) ++ (generated_by ++ endl))
              ++ print (mk_node node_document "" []
                          [mk_node node_element const_root_type [] []])).
Proof.
  intros H1 H2.
  destruct (flush_open p1 w H1) as (tc & w1 & Htc & Hrun1 & Hinst1 & _ & Hf1).
  destruct (flush_open p2 w1 H2) as (tc' & w2 & Htc' & Hrun2 & Hinst2 & _ & Hf2).
  rewrite (started_some w1 tc Hinst1), Hinst1 in Htc'.
  inversion Htc'; subst tc'.
  exists w1, w2, (written tc).
  repeat (split; [assumption|]). split.
  - unfold entries at 1. rewrite Hinst2.
    rewrite <- entries_started. unfold entries. rewrite Htc. reflexivity.
  - intros Hnew. destruct w as [i h fs]. cbn in Hnew.
    destruct Hnew as [->| ->]; cbn in Htc; inversion Htc; reflexivity.
Qed.

End Writing.

Lemma flush_failure_keeps_catalogue_witness :
  @can_open demo_host "/missing/types.xml" = false
  /\ @can_open demo_host "types.xml" = true
  /\ @flush demo_host "/missing/types.xml"
            (snd (@traverse demo_host (TPrim p_int) (demo_world _)))
     = (Throw (sc_report "/missing/types.xml" not_opened),
        snd (@traverse demo_host (TPrim p_int) (demo_world _))).
Proof.
  split; [reflexivity|]. split; [reflexivity|].
  apply (@flush_failure_keeps_catalogue demo_host
           "/missing/types.xml" "types.xml"
           (snd (@traverse demo_host (TPrim p_int) (demo_world _))));
    reflexivity.
Defined.

Lemma flush_deterministic_witness :
  @can_open demo_host "a.xml" = true
  /\ @can_open demo_host "b.xml" = true
  /\ exists w1 w2 out,
       @flush demo_host "a.xml" (demo_world _) = (Ok tt, w1)
       /\ @flush demo_host "b.xml" w1 = (Ok tt, w2)
       /\ file_content "a.xml" (@files demo_host w1) = Some out
       /\ file_content "b.xml" (@files demo_host w2) = Some out
       /\ @entries demo_host w2 = @entries demo_host (demo_world _)
       /\ (@instance demo_host (demo_world _) = None
           \/ @instance demo_host (demo_world _)
              = Some TypeContainer_new ->
           out = ((xml_declaration ++ endl) ++ (generated_by ++ endl))
                 ++ @print demo_host
                      (mk_node node_document "" []
                         [mk_node node_element const_root_type [] []])).
Proof.
  split; [reflexivity|]. split; [reflexivity|].
  apply (@flush_deterministic demo_host "a.xml" "b.xml" (demo_world _));
    reflexivity.
Defined.

(** The empty catalogue on the example host, as written. *)
Example flush_empty_document :
  file_content "types.xml"
    (@files demo_host (snd (@flush demo_host "types.xml" (demo_world _))))
  = Some (xml_declaration ++ endl ++ generated_by ++ endl
          ++ "<forsyde_types/>" ++ endl).
Proof. vm_compute. reflexivity. Qed.

(** ** Deduplication *)

Section Deduplication.
Context `{Host}.

Lemma existsb_name_addr_self (T : ctype) (Rs : list ctype) :
  existsb (fun R => name_addr R =? name_addr T) (Rs ++ [T]) = true.
Proof.
  rewrite existsb_app. apply orb_true_iff. right.
  cbn. rewrite N.eqb_refl. reflexivity.
Qed.

(** From a catalogue, a first call for [T] leaves a world in which a call
    for any type with the same name pointer returns at once. *)
Lemma traverse_then_same_pointer (T T' : ctype) (Rs : list ctype) (w : world) :
  catalogue Rs w -> instantiable T = true -> name_addr T' = name_addr T ->
  exists w1,
    traverse T w = (Ok (get_type_name T), w1)
    /\ traverse T' w1 = (Ok (get_type_name T'), w1).
Proof.
  intros Hcat HT Haddr.
  destruct (existsb (fun R => name_addr R =? name_addr T) Rs) eqn:Hfound.
  - exists w. split; [apply (traverse_found T Rs w Hcat Hfound)|].
    apply (traverse_found T' Rs w Hcat). rewrite Haddr. exact Hfound.
  - destruct (traverse_new T Rs w Hcat HT Hfound) as (w1 & Hrun & Hcat1 & _).
    exists w1. split; [exact Hrun|].
    apply (traverse_found T' (Rs ++ [T]) w1 Hcat1).
    rewrite Haddr. apply existsb_name_addr_self.
Qed.

Lemma reachable_started_catalogue (w : world) :
  reachable w -> exists Rs, catalogue Rs (started w).
Proof.
  intros Hw. destruct (reachable_cases w Hw) as [(h & fs & ->)|(Rs & Hcat)].
  - exists []. apply catalogue_fresh_started.
  - exists Rs. destruct Hcat as (E & Hi & HE).
    rewrite (started_some w _ Hi). exists E. split; assumption.
Qed.

(** Registering the same type twice: the second call returns the same
    pointer and leaves the whole world, free store included, as the first
    call left it. *)
Lemma traverse_twice (T : ctype) (w : world) :
  reachable w -> instantiable T = true ->
  exists w1,
    traverse T w = (Ok (get_type_name T), w1)
    /\ traverse T w1 = (Ok (get_type_name T), w1).
Proof.
  intros Hw HT. destruct (reachable_started_catalogue w Hw) as (Rs & Hcat).
  destruct (traverse_then_same_pointer T T Rs (started w) Hcat HT eq_refl)
    as (w1 & Hrun & Hagain).
  rewrite traverse_started in Hrun. exists w1. split; assumption.
Qed.

(** Two types whose names are one and the same array: the second
    registration returns at once and links nothing. *)
Lemma traverse_same_pointer (T1 T2 : ctype) (w : world) :
  reachable w -> instantiable T1 = true -> name_addr T2 = name_addr T1 ->
  exists w1,
    traverse T1 w = (Ok (get_type_name T1), w1)
    /\ traverse T2 w1 = (Ok (get_type_name T2), w1).
Proof.
  intros Hw HT Haddr. destruct (reachable_started_catalogue w Hw) as (Rs & Hcat).
  destruct (traverse_then_same_pointer T1 T2 Rs (started w) Hcat HT Haddr)
    as (w1 & Hrun & Hagain).
  rewrite traverse_started in Hrun. exists w1. split; assumption.
Qed.

(** After any sequence of calls the entries are, in order, those of the
    types met for the first time by name pointer: their texts are the
    entries of the specification, and the pointers they hold as names are
    pairwise different. *)
Lemma catalogue_after_calls (Ts : list ctype) h fs :
  forallb instantiable Ts = true ->
  exists w',
    traverse_all Ts (fresh h fs) = (Ok tt, w')
    /\ map view (entries w') = map spec_entry (first_calls [] Ts)
    /\ map entry_name (entries w')
       = map (fun T => Some (get_type_name T)) (first_calls [] Ts)
    /\ NoDup (map name_addr (first_calls [] Ts))
    /\ files w' = fs.
Proof.
  intros Hinst.
  destruct (traverse_all_fresh Ts h fs Hinst) as (w' & Hrun & HE & _ & Hfs).
  exists w'. split; [exact Hrun|]. split; [|split; [|split]].
  - symmetry.
    apply (Forall2_map_eq spec_entry view entry_for); [|exact HE].
    intros T e He. symmetry. apply view_entry_for. exact He.
  - symmetry.
    apply (Forall2_map_eq (fun T => Some (get_type_name T)) entry_name entry_for);
      [|exact HE].
    intros T e He. symmetry. apply entry_name_for. exact He.
  - apply first_calls_NoDup.
  - exact Hfs.
Qed.

(** Two types whose name pointers differ both get an entry, whatever the
    characters of their names. *)
Lemma distinct_pointers_two_entries (T1 T2 : ctype) h fs :
  instantiable T1 = true -> instantiable T2 = true ->
  name_addr T1 <> name_addr T2 ->
  exists w',
    traverse_all [T1; T2] (fresh h fs) = (Ok tt, w')
    /\ map view (entries w') = [spec_entry T1; spec_entry T2].
Proof.
  intros H1 H2 Hne.
  destruct (catalogue_after_calls [T1; T2] h fs) as (w' & Hrun & Hview & _).
  { cbn. rewrite H1, H2. reflexivity. }
  exists w'. split; [exact Hrun|]. rewrite Hview.
  cbn [first_calls existsb]. fold (name_addr T1) (name_addr T2).
  destruct (N.eqb_spec (name_addr T2) (name_addr T1)) as [E|_];
    [congruence|reflexivity].
Qed.

(** Where equal name texts among the registered types always sit in one
    array, the name texts of the entries are pairwise different too. *)
Lemma entry_texts_distinct (Ts : list ctype) :
  (forall T1 T2, In T1 Ts -> In T2 Ts ->
     name_text T1 = name_text T2 -> name_addr T1 = name_addr T2) ->
  NoDup (map name_text (first_calls [] Ts)).
Proof.
  intros Hpool.
  pose proof (first_calls_NoDup Ts []) as [Hnd _].
  pose proof (first_calls_incl Ts []) as Hincl.
  induction (first_calls [] Ts) as [|R Rs IH]; [constructor|].
  cbn in Hnd |- *. inversion Hnd as [|? ? Hnot Hnd']; subst.
  constructor.
  - intros Hin. apply Hnot. apply in_map_iff in Hin.
    destruct Hin as (R' & Htext & HIn). apply in_map_iff.
    exists R'. split; [|exact HIn].
    apply Hpool; [apply Hincl; right; exact HIn|apply Hincl; left; reflexivity|].
    exact Htext.
  - apply IH; [exact Hnd'|]. intros T HT. apply Hincl. right. exact HT.
Qed.

End Deduplication.

(** C1.  On a host that keeps the equal names of two classes in two arrays,
    registering the one and then the other leaves two top-level entries
    whose names read the same: the scan of [traverse] compares the pointers
    with [==] and not the characters. *)
Theorem duplicate_name_in_catalogue :
  let run := @traverse_all alias_host [TOther 0; TOther 1] (demo_world _) in
  fst run = Ok tt
  /\ map (fun e => text_attr const_name (view e))
         (@entries alias_host (snd run))
     = [Some "pkt"; Some "pkt"]
  /\ map (fun e => option_map c_addr (entry_name e))
         (@entries alias_host (snd run))
     = [Some 8192; Some 8208].
Proof. repeat split; vm_compute; reflexivity. Qed.

(** On the same host the second of two different types whose names read
    the same is not served from the first one's entry: the call returns
    the shared text and links a second entry, with the second type's own
    descriptor. *)
Theorem collision_not_reused :
  let first := @traverse alias_host (TOther 0) (demo_world _) in
  let second := @traverse alias_host (TOther 1) (snd first) in
  result_text (fst first) = Some "pkt"
  /\ result_text (fst second) = Some "pkt"
  /\ map view (@entries alias_host (snd first))
     = [Tag "data_type" [("name", "pkt")]
          [Tag "primitive" [("name", "pkt"); ("size", "1")] []]]
  /\ map view (@entries alias_host (snd second))
     = [Tag "data_type" [("name", "pkt")]
          [Tag "primitive" [("name", "pkt"); ("size", "1")] []];
        Tag "data_type" [("name", "pkt")]
          [Tag "primitive" [("name", "pkt"); ("size", "2")] []]].
Proof. repeat split; vm_compute; reflexivity. Qed.

(** Where the two names are one array, the first entry serves both. *)
Example collision_reused_when_pooled :
  let first := @traverse pooled_host (TOther 0) (demo_world _) in
  let second := @traverse pooled_host (TOther 1) (snd first) in
  result_text (fst second) = Some "pkt"
  /\ snd second = snd first
  /\ map view (@entries pooled_host (snd second))
     = [Tag "data_type" [("name", "pkt")]
          [Tag "primitive" [("name", "pkt"); ("size", "1")] []]].
Proof. repeat split; vm_compute; reflexivity. Qed.

(** ** Collisions of fallback names *)

Section Fallback.
Context `{Host}.

Lemma fallback_name (T : ctype) :
  has_define_type T = false -> get_type_name T = typeid_name T.
Proof. destruct T; [discriminate|reflexivity|reflexivity|reflexivity]. Qed.

Lemma holds_pointer_started (a : N) (w : world) :
  holds_pointer a (started w) = holds_pointer a w.
Proof. unfold holds_pointer. rewrite entries_started. reflexivity. Qed.

(** C6.  Two different type expressions without a [DEFINE_TYPE] line whose
    RTTI fallback names are one and the same name: registering the first
    and then the second, the second call returns that shared name and
    leaves the world as the first call left it, so no entry is linked for
    it; and where no entry held the name before, the entry that now serves
    both is the one built from the first type's descriptor. *)
Theorem fallback_collision_reused (T1 T2 : ctype) (w : world) :
  reachable w -> instantiable T1 = true ->
  T1 <> T2 ->
  has_define_type T1 = false -> has_define_type T2 = false ->
  typeid_name T1 = typeid_name T2 ->
  exists w1,
    traverse T1 w = (Ok (typeid_name T1), w1)
    /\ traverse T2 w1 = (Ok (typeid_name T1), w1)
    /\ (holds_pointer (c_addr (typeid_name T1)) w = false ->
        map view (entries w1)
        = (map view (entries w) ++ [spec_entry T1])%list).
Proof.
  intros Hw HT1 _ Hf1 Hf2 Hsame.
  pose proof (fallback_name T1 Hf1) as Hn1.
  pose proof (fallback_name T2 Hf2) as Hn2.
  rewrite <- Hsame in Hn2.
  assert (Haddr : name_addr T2 = name_addr T1).
  { unfold name_addr. rewrite Hn1, Hn2. reflexivity. }
  destruct (reachable_started_catalogue w Hw) as (Rs & Hcat).
  destruct (traverse_then_same_pointer T1 T2 Rs (started w) Hcat HT1 Haddr)
    as (w1 & Hrun1 & Hrun2).
  rewrite traverse_started, Hn1 in Hrun1. rewrite Hn2 in Hrun2.
  exists w1. split; [exact Hrun1|]. split; [exact Hrun2|].
  intros Hnot. rewrite <- holds_pointer_started in Hnot.
  rewrite (holds_pointer_catalogue _ Rs _ Hcat) in Hnot.
  rewrite <- Hn1 in Hnot. fold (name_addr T1) in Hnot.
  destruct (traverse_new T1 Rs (started w) Hcat HT1 Hnot)
    as (w1' & Hrun1' & Hcat1 & _).
  rewrite traverse_started, Hn1, Hrun1 in Hrun1'.
  inversion Hrun1'; subst w1'.
  rewrite (entries_catalogue _ _ Hcat1), <- (entries_started w),
    (entries_catalogue _ _ Hcat), map_app.
  reflexivity.
Qed.

End Fallback.

Lemma fallback_collision_reused_witness :
  @reachable cv_host (demo_world _)
  /\ @instantiable cv_host (TVector (TPrim p_int)) = true
  /\ TVector (TPrim p_int) <> TOther 0
  /\ @typeid_name cv_host (TVector (TPrim p_int))
     = @typeid_name cv_host (TOther 0)
  /\ exists w1,
       @traverse cv_host (TVector (TPrim p_int)) (demo_world _)
       = (Ok (@typeid_name cv_host (TVector (TPrim p_int))), w1)
       /\ @traverse cv_host (TOther 0) w1
          = (Ok (@typeid_name cv_host (TVector (TPrim p_int))), w1)
       /\ (@holds_pointer cv_host
             (c_addr (@typeid_name cv_host (TVector (TPrim p_int))))
             (demo_world _) = false ->
           map view (@entries cv_host w1)
           = (map view (@entries cv_host (demo_world _))
              ++ [@spec_entry cv_host (TVector (TPrim p_int))])%list).
Proof.
  assert (Hr : @reachable cv_host (demo_world _)).
  { exists [], 1048576, [], (demo_world _).
    split; [reflexivity|]. split; [reflexivity|]. left. reflexivity. }
  split; [exact Hr|]. split; [reflexivity|]. split; [discriminate|].
  split; [reflexivity|].
  apply (@fallback_collision_reused cv_host
           (TVector (TPrim p_int)) (TOther 0) (demo_world _) Hr).
  - reflexivity.
  - discriminate.
  - reflexivity.
  - reflexivity.
  - reflexivity.
Defined.

(** [const Vector<int>] after [Vector<int>] on that host: one entry, the
    vector's. *)
Example const_vector_served_by_vector :
  let first := @traverse cv_host (TVector (TPrim p_int)) (demo_world _) in
  let second := @traverse cv_host (TOther 0) (snd first) in
  result_text (fst second) = Some "ViE"
  /\ snd second = snd first
  /\ map view (@entries cv_host (snd second))
     = [Tag "data_type" [("name", "ViE")]
          [Tag "vector" [("size", "24")]
             [Tag "primitive" [("name", "int"); ("size", "4")] []]]].
Proof. repeat split; vm_compute; reflexivity. Qed.

(** ** Primitives, other shapes, and where names sit *)

Section Shapes.
Context `{Host}.

Lemma prim_literal_inj (P Q : prim) : prim_literal Q = prim_literal P -> Q = P.
Proof. destruct P, Q; intros E; try reflexivity; discriminate E. Qed.

Lemma filter_none {A} (p : A -> bool) (l : list A) :
  (forall y, In y l -> p y = false) -> filter p l = [].
Proof.
  induction l as [|a l IH]; intros Hp; [reflexivity|].
  cbn. rewrite (Hp a (or_introl eq_refl)). apply IH.
  intros y Hy. apply Hp. right. exact Hy.
Qed.

(** In a list without two elements of the same key, a test that only [x]
    passes selects [x] alone. *)
Lemma filter_unique {A} (f : A -> N) (p : A -> bool) (x : A) (l : list A) :
  NoDup (map f l) -> In x l -> p x = true ->
  (forall y, In y l -> p y = true -> y = x) ->
  filter p l = [x].
Proof.
  induction l as [|a l IH]; intros Hnd Hin Hpx Honly; [contradiction|].
  cbn in Hnd. inversion Hnd as [|? ? Hnot Hnd']; subst.
  assert (Hfresh : forall y, In y l -> f y <> f a).
  { intros y Hy E. apply Hnot. rewrite <- E. apply in_map. exact Hy. }
  destruct Hin as [->|Hin].
  - cbn. rewrite Hpx. f_equal. apply filter_none.
    intros y Hy. destruct (p y) eqn:Hpy; [|reflexivity].
    exfalso. apply (Hfresh y Hy). f_equal.
    apply Honly; [right; exact Hy|exact Hpy].
  - cbn. destruct (p a) eqn:Hpa.
    + exfalso. apply (Hfresh x Hin). f_equal. symmetry.
      apply Honly; [left; reflexivity|exact Hpa].
    + apply IH; [exact Hnd'|exact Hin|exact Hpx|].
      intros y Hy. apply Honly. right. exact Hy.
Qed.

Lemma filter_map_swap {A B} (g : A -> B) (q : B -> bool) (l : list A) :
  filter q (map g l) = map g (filter (fun a => q (g a)) l).
Proof.
  induction l as [|a l IH]; [reflexivity|].
  cbn. destruct (q (g a)); cbn; rewrite IH; reflexivity.
Qed.

Lemma named_as_spec_entry (s : string) (T : ctype) :
  named_as s (spec_entry T) = String.eqb (name_text T) s.
Proof. reflexivity. Qed.

(** C5.  For every built-in primitive [P]: [get_type_name] returns the
    literal of its [DEFINE_TYPE] line; no other primitive has that literal;
    and after any sequence of calls that ends with the call for [P], in
    which no other type shares the address or the text of that literal, a
    flush leaves in the file the two fixed lines and the printed document
    whose root [forsyde_types] holds the entries [E] of the catalogue,
    among which exactly one has that name: a [data_type] with one
    [primitive] child whose size is the decimal [sizeof(P)]. *)
Theorem primitive_registered (P : prim) (Ts : list ctype) (path : string)
        h fs :
  forallb instantiable Ts = true ->
  Forall (fun T => T = TPrim P
                   \/ (name_addr T <> literal_addr P
                       /\ name_text T <> prim_literal P)) Ts ->
  can_open path = true ->
  c_text (get_type_name (TPrim P)) = prim_literal P
  /\ (forall Q, prim_literal Q = prim_literal P -> Q = P)
  /\ exists E w',
       (traverse_all (Ts ++ [TPrim P]);;; flush path) (fresh h fs)
       = (Ok tt, w')
       /\ entries w' = E
       /\ file_content path (files w')
          = Some (((xml_declaration ++ endl) ++ (generated_by ++ endl))
                  ++ print (mk_node node_document "" []
                              [mk_node node_element const_root_type [] E]))
       /\ filter (named_as (prim_literal P)) (map view E)
          = [Tag const_data_type [(const_name, prim_literal P)]
               [Tag const_primitive
                    [(const_name, prim_literal P);
                     (const_size, to_string (sizeof (TPrim P)))] []]].
Proof.
  intros Hinst Hothers Hopen.
  split; [reflexivity|]. split; [apply prim_literal_inj|].
  assert (Hinst' : forallb instantiable (Ts ++ [TPrim P]) = true).
  { rewrite forallb_app, Hinst. reflexivity. }
  assert (Hall : forall T, In T (Ts ++ [TPrim P]) ->
            T = TPrim P
            \/ (name_addr T <> literal_addr P /\ name_text T <> prim_literal P)).
  { intros T HT. apply in_app_iff in HT. destruct HT as [HT|[<-|[]]].
    - rewrite Forall_forall in Hothers. apply Hothers. exact HT.
    - left. reflexivity. }
  destruct (traverse_all_fresh (Ts ++ [TPrim P]) h fs Hinst')
    as (w1 & Hrun & HE & Hcat & _).
  destruct Hcat as (E & Hi & HE').
  { destruct Ts; discriminate. }
  destruct (flush_open path w1 Hopen) as (tc & w' & Htc & Hflush & Hi' & _ & Hfile).
  rewrite (started_some w1 _ Hi), Hi in Htc. inversion Htc; subst tc.
  exists E, w'. split; [|split; [|split; [exact Hfile|]]].
  - erewrite bind_Ok by exact Hrun. exact Hflush.
  - unfold entries. rewrite Hi'. reflexivity.
  - rewrite <- (Forall2_map_eq spec_entry view entry_for
                  (fun T e He => eq_sym (view_entry_for T e He)) _ _ HE').
    rewrite filter_map_swap.
    rewrite (filter_unique name_addr
               (fun T => named_as (prim_literal P) (spec_entry T)) (TPrim P)).
    + reflexivity.
    + apply first_calls_NoDup.
    + destruct (first_calls_covers (Ts ++ [TPrim P]) [] (TPrim P)) as [[]|Hin].
      { apply in_app_iff. right. left. reflexivity. }
      apply in_map_iff in Hin. destruct Hin as (R & HR & HIn).
      destruct (Hall R (first_calls_incl _ _ _ HIn)) as [->|[Hne _]];
        [exact HIn|].
      exfalso. apply Hne. exact HR.
    + rewrite named_as_spec_entry. apply String.eqb_refl.
    + intros R HIn HR. rewrite named_as_spec_entry in HR.
      apply String.eqb_eq in HR.
      destruct (Hall R (first_calls_incl _ _ _ HIn)) as [->|[_ Hne]];
        [reflexivity|].
      exfalso. apply Hne. exact HR.
Qed.

(** C2.  A type that is neither a vector nor a tuple, built-in or not, is
    handled by the primary template: the call raises nothing and returns
    the type's RTTI name; where an entry holds that pointer already the
    world is unchanged, and otherwise one entry is linked after the others,
    a [data_type] of that name with one [primitive] child that carries the
    name and the decimal [sizeof(T)]. *)
Theorem other_shape_registered (u : N) (w : world) :
  reachable w ->
  exists w',
    traverse (TOther u) w = (Ok (typeid_name (TOther u)), w')
    /\ files w' = files w
    /\ if holds_pointer (c_addr (typeid_name (TOther u))) w
       then w' = w
       else map view (entries w')
            = (map view (entries w)
               ++ [Tag const_data_type
                     [(const_name, c_text (typeid_name (TOther u)))]
                     [Tag const_primitive
                        [(const_name, c_text (typeid_name (TOther u)));
                         (const_size, to_string (sizeof (TOther u)))] []]])%list.
Proof.
  intros Hw. destruct (reachable_cases w Hw) as [(h & fs & ->)|(Rs & Hcat)].
  - destruct (traverse_new (TOther u) [] (started (fresh h fs)))
      as (w' & Hrun & Hcat' & Hfs);
      [apply catalogue_fresh_started|reflexivity|reflexivity|].
    rewrite traverse_started in Hrun.
    exists w'. split; [exact Hrun|]. split; [exact Hfs|].
    cbn [holds_pointer entries fresh instance existsb].
    rewrite (entries_catalogue _ _ Hcat'). reflexivity.
  - rewrite (holds_pointer_catalogue _ Rs w Hcat).
    change (c_addr (typeid_name (TOther u))) with (name_addr (TOther u)).
    destruct (existsb (fun R => name_addr R =? name_addr (TOther u)) Rs)
      eqn:Hfound.
    + exists w. split; [|split; reflexivity].
      apply (traverse_found (TOther u) Rs w Hcat Hfound).
    + destruct (traverse_new (TOther u) Rs w Hcat eq_refl Hfound)
        as (w' & Hrun & Hcat' & Hfs).
      exists w'. split; [exact Hrun|]. split; [exact Hfs|].
      rewrite (entries_catalogue _ _ Hcat'), (entries_catalogue _ _ Hcat).
      rewrite map_app. reflexivity.
Qed.

Lemma names_placed_descriptor :
  forall T, names_placed (spec_descriptor T) = true.
Proof.
  induction T as [p|u|T IH|Ts IH] using ctype_nested_ind.
  - reflexivity.
  - reflexivity.
  - cbn. rewrite IH. reflexivity.
  - cbn. induction IH as [|T Ts HT _ IHTs]; [reflexivity|].
    cbn in IHTs |- *. rewrite HT. exact IHTs.
Qed.

Lemma names_placed_entry (T : ctype) : names_placed (spec_entry T) = true.
Proof. cbn. rewrite names_placed_descriptor. reflexivity. Qed.

(** C9.  After any sequence of calls, in every entry of the catalogue the
    [name] attribute sits on the top-level [data_type] element and on every
    [primitive] element below it, and on no [vector] or [tuple] element. *)
Theorem names_on_entries_and_primitives (Ts : list ctype) h fs :
  forallb instantiable Ts = true ->
  exists w',
    traverse_all Ts (fresh h fs) = (Ok tt, w')
    /\ Forall (fun e => names_placed (view e) = true) (entries w').
Proof.
  intros Hinst.
  destruct (catalogue_after_calls Ts h fs Hinst) as (w' & Hrun & Hview & _).
  exists w'. split; [exact Hrun|].
  apply Forall_map with (f := view) (P := fun t => names_placed t = true).
  rewrite Hview. apply Forall_map. apply Forall_forall.
  intros T _. apply names_placed_entry.
Qed.

End Shapes.

Lemma primitive_registered_witness :
  @forallb ctype (@instantiable demo_host)
     [TVector (TPrim p_int); TPrim p_int; TOther 3] = true
  /\ Forall (fun T => T = TPrim p_int
                      \/ (@name_addr demo_host T
                          <> @literal_addr demo_host p_int
                          /\ @name_text demo_host T <> prim_literal p_int))
            [TVector (TPrim p_int); TPrim p_int; TOther 3]
  /\ @can_open demo_host "types.xml" = true
  /\ exists E w',
       (@bind demo_host _ _
          (@traverse_all demo_host
             ([TVector (TPrim p_int); TPrim p_int; TOther 3]
              ++ [TPrim p_int])%list)
          (fun _ => @flush demo_host "types.xml")) (demo_world _)
       = (Ok tt, w')
       /\ @entries demo_host w' = E
       /\ file_content "types.xml" (@files demo_host w')
          = Some (((xml_declaration ++ endl) ++ (generated_by ++ endl))
                  ++ @print demo_host
                       (mk_node node_document "" []
                          [mk_node node_element const_root_type [] E]))
       /\ filter (named_as "int") (map view E)
          = [Tag const_data_type [(const_name, "int")]
               [Tag const_primitive
                    [(const_name, "int"); (const_size, "4")] []]].
Proof.
  assert (Hothers :
            Forall (fun T => T = TPrim p_int
                      \/ (@name_addr demo_host T
                          <> @literal_addr demo_host p_int
                          /\ @name_text demo_host T <> prim_literal p_int))
                   [TVector (TPrim p_int); TPrim p_int; TOther 3]).
  { apply Forall_cons; [right; split; vm_compute; discriminate|].
    apply Forall_cons; [left; reflexivity|].
    apply Forall_cons; [right; split; vm_compute; discriminate|].
    apply Forall_nil. }
  split; [reflexivity|]. split; [exact Hothers|]. split; [reflexivity|].
  apply (@primitive_registered demo_host p_int
           [TVector (TPrim p_int); TPrim p_int; TOther 3] "types.xml"
           1048576 []).
  - reflexivity.
  - exact Hothers.
  - reflexivity.
Defined.

(** C2, refuted as stated: on the example host the call for a class, which
    is neither primitive nor vector nor tuple, returns its name and the
    catalogue, empty before, holds an entry for it. *)
Lemma other_shape_not_rejected :
  let run := @traverse demo_host (TOther 7) (demo_world _) in
  @entries demo_host (demo_world _) = []
  /\ result_text (fst run) = Some "C7"
  /\ map view (@entries demo_host (snd run))
     = [Tag "data_type" [("name", "C7")]
          [Tag "primitive" [("name", "C7"); ("size", "8")] []]]
  /\ ~ (exists e w',
          run = (Throw e, w')
          /\ @entries demo_host w' = @entries demo_host (demo_world _)).
Proof.
  split; [reflexivity|]. split; [vm_compute; reflexivity|].
  split; [vm_compute; reflexivity|].
  intros (e & w' & Hrun & _). apply (f_equal fst) in Hrun.
  vm_compute in Hrun. discriminate Hrun.
Qed.

Lemma other_shape_registered_witness :
  let w := snd (@traverse_all demo_host [TPrim p_int] (demo_world _)) in
  @reachable demo_host w
  /\ exists w',
       @traverse demo_host (TOther 7) w
       = (Ok (@typeid_name demo_host (TOther 7)), w')
       /\ @files demo_host w' = @files demo_host w
       /\ if @holds_pointer demo_host
               (c_addr (@typeid_name demo_host (TOther 7))) w
          then w' = w
          else map view (@entries demo_host w')
               = (map view (@entries demo_host w)
                  ++ [Tag const_data_type
                        [(const_name,
                          c_text (@typeid_name demo_host (TOther 7)))]
                        [Tag const_primitive
                           [(const_name,
                             c_text (@typeid_name demo_host (TOther 7)));
                            (const_size,
                             to_string (@sizeof demo_host (TOther 7)))]
                           []]])%list.
Proof.
  intros w. split.
  - exists [TPrim p_int], 1048576, [], w.
    split; [reflexivity|]. split; [reflexivity|]. left. reflexivity.
  - apply (@other_shape_registered demo_host 7 w).
    exists [TPrim p_int], 1048576, [], w.
    split; [reflexivity|]. split; [reflexivity|]. left. reflexivity.
Defined.

(** C9, refuted as stated: in the entry of [int] the [primitive] element
    below the top-level element carries a [name] attribute. *)
Lemma nested_primitive_is_named :
  let run := @traverse demo_host (TPrim p_int) (demo_world _) in
  map view (@entries demo_host (snd run))
  = [Tag "data_type" [("name", "int")]
       [Tag "primitive" [("name", "int"); ("size", "4")] []]]
  /\ map (fun e => name_only_at_top (view e)) (@entries demo_host (snd run))
     = [false].
Proof. split; vm_compute; reflexivity. Qed.

Lemma names_on_entries_and_primitives_witness :
  @forallb ctype (@instantiable demo_host)
     [TVector (TTuple [TPrim p_char; TPrim p_double]); TPrim p_int] = true
  /\ exists w',
       @traverse_all demo_host
         [TVector (TTuple [TPrim p_char; TPrim p_double]); TPrim p_int]
         (demo_world _) = (Ok tt, w')
       /\ Forall (fun e => names_placed (view e) = true)
                 (@entries demo_host w').
Proof.
  split; [reflexivity|].
  apply (@names_on_entries_and_primitives demo_host
           [TVector (TTuple [TPrim p_char; TPrim p_double]); TPrim p_int]
           1048576 []).
  reflexivity.
Defined.

(** ** More on registration *)

Section Registration_more.
Context `{Host}.

(** A call for a type whose name pointer is not in the catalogue, with the
    entry it links. *)
Lemma traverse_new_entry (T : ctype) (Rs : list ctype) (w : world) :
  catalogue Rs w -> instantiable T = true ->
  existsb (fun R => name_addr R =? name_addr T) Rs = false ->
  exists e w',
    traverse T w = (Ok (get_type_name T), w')
    /\ entries w' = (entries w ++ [e])%list
    /\ entry_for T e
    /\ files w' = files w.
Proof.
  intros (E & Hinst & HE) HT Hfound.
  destruct w as [i h fs]. cbn in Hinst. subst i.
  destruct (add_type_node_builds
              (mk_container (mk_node node_element const_root_type [] E))
              fs T HT h) as (d & h' & Hd & Hview).
  eexists. eexists. split; [|split; [|split]].
  - unfold traverse. erewrite bind_Ok by reflexivity.
    erewrite bind_Ok by (apply (traverse_scan_entries _ _ _ _ HE)).
    fold (name_addr T). rewrite Hfound.
    erewrite bind_Ok.
    2:{ unfold add_node. erewrite bind_Ok by reflexivity.
        erewrite bind_Ok
          by (erewrite bind_Ok by reflexivity; apply Hd).
        reflexivity. }
    erewrite bind_Ok by reflexivity. reflexivity.
  - reflexivity.
  - exists d. split; [reflexivity|exact Hview].
  - reflexivity.
Qed.

Lemma holds_pointer_app_self (T : ctype) (w : world) (l : list xml_node) e :
  entries w = (l ++ [e])%list -> entry_for T e ->
  holds_pointer (name_addr T) w = true.
Proof.
  intros Hentries He. unfold holds_pointer. rewrite Hentries, existsb_app.
  apply orb_true_iff. right. cbn [existsb].
  rewrite (entry_name_for T e He). fold (name_addr T).
  rewrite N.eqb_refl. reflexivity.
Qed.

(** X1.  In a world a process can be in, a call of [traverse] for a type it
    can be instantiated for returns the type's name pointer and raises
    nothing.  The entries that were there are still there, unchanged and in
    their places; at most one entry is linked after them; the files are
    untouched; and afterwards some entry holds the returned pointer. *)
Theorem traverse_extends_catalogue (T : ctype) (w : world) :
  reachable w -> instantiable T = true ->
  exists w' added,
    traverse T w = (Ok (get_type_name T), w')
    /\ entries w' = (entries w ++ added)%list
    /\ (length added <= 1)%nat
    /\ files w' = files w
    /\ holds_pointer (c_addr (get_type_name T)) w' = true.
Proof.
  intros Hw HT.
  destruct (reachable_started_catalogue w Hw) as (Rs & Hcat).
  rewrite <- traverse_started, <- (entries_started w).
  change (files w) with (files (started w)).
  fold (name_addr T).
  destruct (existsb (fun R => name_addr R =? name_addr T) Rs) eqn:Hfound.
  - exists (started w), []. split; [|split; [|split; [|split]]].
    + apply (traverse_found T Rs _ Hcat Hfound).
    + rewrite app_nil_r. reflexivity.
    + cbn. lia.
    + reflexivity.
    + rewrite (holds_pointer_catalogue _ Rs _ Hcat). exact Hfound.
  - destruct (traverse_new_entry T Rs _ Hcat HT Hfound)
      as (e & w' & Hrun & Hentries & He & Hfs).
    exists w', [e]. split; [exact Hrun|]. split; [exact Hentries|].
    split; [cbn; lia|]. split; [exact Hfs|].
    apply (holds_pointer_app_self T w' _ e Hentries He).
Qed.

(** X2.  After any sequence of calls from the start of the process, the
    catalogue holds one entry for each type met for the first time by name
    pointer, in the order of those first calls; the text of each is the
    entry of its type, the pointers held as names are pairwise different,
    and every type of the sequence finds its pointer in some entry. *)
Theorem entries_in_first_call_order (Ts : list ctype) h fs :
  forallb instantiable Ts = true ->
  exists w',
    traverse_all Ts (fresh h fs) = (Ok tt, w')
    /\ map view (entries w') = map spec_entry (first_calls [] Ts)
    /\ map entry_name (entries w')
       = map (fun T => Some (get_type_name T)) (first_calls [] Ts)
    /\ NoDup (map name_addr (first_calls [] Ts))
    /\ (forall T, In T Ts -> holds_pointer (name_addr T) w' = true)
    /\ files w' = fs.
Proof.
  intros Hinst.
  destruct (traverse_all_fresh Ts h fs Hinst) as (w' & Hrun & HE & Hcat & Hfs).
  exists w'. split; [exact Hrun|]. split; [|split; [|split; [|split]]].
  - symmetry.
    apply (Forall2_map_eq spec_entry view entry_for); [|exact HE].
    intros T e He. symmetry. apply view_entry_for. exact He.
  - symmetry.
    apply (Forall2_map_eq (fun T => Some (get_type_name T)) entry_name
             entry_for); [|exact HE].
    intros T e He. symmetry. apply entry_name_for. exact He.
  - apply first_calls_NoDup.
  - intros T HT.
    assert (Hne : Ts <> []) by (intros ->; contradiction).
    rewrite (holds_pointer_catalogue _ _ _ (Hcat Hne)).
    destruct (first_calls_covers Ts [] T HT) as [[]|Hin].
    apply in_map_iff in Hin. destruct Hin as (R & HR & HIn).
    apply existsb_exists. exists R. split; [exact HIn|].
    apply N.eqb_eq. exact HR.
  - exact Hfs.
Qed.

Lemma traverse_all_fixed (L : list ctype) (w : world) :
  (forall T, In T L -> traverse T w = (Ok (get_type_name T), w)) ->
  traverse_all L w = (Ok tt, w).
Proof.
  induction L as [|T L IH]; intros Hfix; [reflexivity|].
  cbn [traverse_all].
  erewrite bind_Ok by (apply Hfix; left; reflexivity).
  apply IH. intros R HR. apply Hfix. right. exact HR.
Qed.

(** X11.  Running a whole sequence of calls a second time changes nothing:
    after the first run, the same sequence, and each call of it on its own,
    returns and leaves the world, free store included, as it was. *)
Theorem traverse_all_again (Ts : list ctype) h fs :
  forallb instantiable Ts = true ->
  exists w',
    traverse_all Ts (fresh h fs) = (Ok tt, w')
    /\ traverse_all Ts w' = (Ok tt, w')
    /\ forall T, In T Ts -> traverse T w' = (Ok (get_type_name T), w').
Proof.
  intros Hinst.
  destruct (traverse_all_fresh Ts h fs Hinst) as (w' & Hrun & _ & Hcat & _).
  exists w'. split; [exact Hrun|].
  assert (Hfix : forall T, In T Ts ->
            traverse T w' = (Ok (get_type_name T), w')).
  { intros T HT.
    assert (Hne : Ts <> []) by (intros ->; contradiction).
    apply (traverse_found T _ w' (Hcat Hne)).
    destruct (first_calls_covers Ts [] T HT) as [[]|Hin].
    apply in_map_iff in Hin. destruct Hin as (R & HR & HIn).
    apply existsb_exists. exists R. split; [exact HIn|].
    apply N.eqb_eq. exact HR. }
  split; [|exact Hfix].
  apply traverse_all_fixed. exact Hfix.
Qed.

(** The scan over children that carry other names and then one that
    carries none. *)
Lemma traverse_scan_unnamed (type_name : cstr) (w : world) c post :
  first_attribute const_name c = None ->
  forall pre,
    Forall (fun e => exists a,
              first_attribute const_name e = Some a
              /\ ptr_eqb (a_value a) type_name = false) pre ->
    traverse_scan type_name (pre ++ c :: post) w = (Throw null_dereference, w).
Proof.
  intros Hc. induction 1 as [|e pre (a & Ha & Hne) _ IH].
  - cbn. rewrite Hc. reflexivity.
  - cbn [app traverse_scan]. rewrite Ha, Hne. exact IH.
Qed.

(** X3.  The scan of [traverse] dereferences the [name] attribute of every
    child of the root it meets.  Where the root has a child without that
    attribute, and no child before it holds the pointer looked for, the
    call dereferences a null pointer; nothing has been changed by then. *)
Theorem traverse_unnamed_child (T : ctype) (w : world) tc pre c post :
  instance w = Some tc ->
  n_children (root tc) = (pre ++ c :: post)%list ->
  Forall (fun e => exists a,
            first_attribute const_name e = Some a
            /\ ptr_eqb (a_value a) (get_type_name T) = false) pre ->
  first_attribute const_name c = None ->
  traverse T w = (Throw null_dereference, w).
Proof.
  intros Hinst Hchildren Hpre Hc.
  destruct w as [i h fs]. cbn in Hinst. subst i.
  unfold traverse. erewrite bind_Ok by reflexivity.
  cbv zeta. rewrite Hchildren.
  erewrite bind_Throw
    by (apply (traverse_scan_unnamed _ _ c post Hc pre Hpre)).
  reflexivity.
Qed.

End Registration_more.

Lemma traverse_extends_catalogue_witness :
  let w := snd (@traverse_all demo_host [TPrim p_int] (demo_world _)) in
  @reachable demo_host w
  /\ @instantiable demo_host (TVector (TPrim p_int)) = true
  /\ exists w' added,
       @traverse demo_host (TVector (TPrim p_int)) w
       = (Ok (@get_type_name demo_host (TVector (TPrim p_int))), w')
       /\ @entries demo_host w' = (@entries demo_host w ++ added)%list
       /\ (length added <= 1)%nat
       /\ @files demo_host w' = @files demo_host w
       /\ @holds_pointer demo_host
            (c_addr (@get_type_name demo_host (TVector (TPrim p_int)))) w'
          = true.
Proof.
  intros w.
  assert (Hr : @reachable demo_host w).
  { exists [TPrim p_int], 1048576, [], w.
    split; [reflexivity|]. split; [reflexivity|]. left. reflexivity. }
  split; [exact Hr|]. split; [reflexivity|].
  apply (@traverse_extends_catalogue demo_host (TVector (TPrim p_int)) w Hr).
  reflexivity.
Defined.

Lemma entries_in_first_call_order_witness :
  @forallb ctype (@instantiable demo_host)
     [TPrim p_int; TVector (TPrim p_int); TPrim p_int] = true
  /\ exists w',
       @traverse_all demo_host
         [TPrim p_int; TVector (TPrim p_int); TPrim p_int] (demo_world _)
       = (Ok tt, w')
       /\ map view (@entries demo_host w')
          = map (@spec_entry demo_host)
                (@first_calls demo_host []
                   [TPrim p_int; TVector (TPrim p_int); TPrim p_int]).
Proof.
  split; [reflexivity|].
  destruct (@entries_in_first_call_order demo_host
              [TPrim p_int; TVector (TPrim p_int); TPrim p_int] 1048576 []
              eq_refl) as (w' & Hrun & Hview & _).
  exists w'. split; [exact Hrun|exact Hview].
Defined.

Lemma traverse_all_again_witness :
  @forallb ctype (@instantiable demo_host)
     [TPrim p_int; TVector (TPrim p_int); TPrim p_int] = true
  /\ exists w',
       @traverse_all demo_host
         [TPrim p_int; TVector (TPrim p_int); TPrim p_int] (demo_world _)
       = (Ok tt, w')
       /\ @traverse_all demo_host
            [TPrim p_int; TVector (TPrim p_int); TPrim p_int] w'
          = (Ok tt, w').
Proof.
  split; [reflexivity|].
  destruct (@traverse_all_again demo_host
              [TPrim p_int; TVector (TPrim p_int); TPrim p_int] 1048576 []
              eq_refl) as (w' & Hrun & Hagain & _).
  exists w'. split; [exact Hrun|exact Hagain].
Defined.

Lemma traverse_unnamed_child_witness :
  let int_entry :=
    mk_node node_element const_data_type
      [mk_attribute const_name (@get_type_name demo_host (TPrim p_int))] [] in
  let note := mk_node node_element "note" [] [] in
  let tc :=
    mk_container
      (mk_node node_element const_root_type [] [int_entry; note]) in
  let w := @mk_world demo_host (Some tc) 1048576 [] in
  @instance demo_host w = Some tc
  /\ n_children (root tc) = ([int_entry] ++ note :: [])%list
  /\ first_attribute const_name note = None
  /\ @traverse demo_host (TPrim p_char) w = (Throw null_dereference, w).
Proof.
  intros int_entry note tc w.
  split; [reflexivity|]. split; [reflexivity|]. split; [reflexivity|].
  apply (@traverse_unnamed_child demo_host (TPrim p_char) w tc
           [int_entry] note []).
  - reflexivity.
  - reflexivity.
  - constructor; [|constructor].
    eexists. split; reflexivity.
  - reflexivity.
Defined.

(** ** More on the builder *)

Section Builder_more.
Context `{Host}.

Lemma add_node_Throw parent name rest (tc : TypeContainer) h fs w' e :
  rest (allocate_node node_element name) (mk_world (Some tc) h fs)
  = (Throw e, w') ->
  add_node parent name rest (mk_world (Some tc) h fs) = (Throw e, w').
Proof.
  intros Hrest. unfold add_node. erewrite bind_Ok by reflexivity.
  erewrite bind_Throw by exact Hrest. reflexivity.
Qed.

(** [traverse_tuple] over a pack one of whose components cannot be built:
    the components before it are built and the first such one stops the
    instantiation. *)
Lemma traverse_tuple_throws (tc : TypeContainer) fs :
  forall Tup,
    Forall (fun T => arity_ok T = true -> instantiable T = false ->
              forall parent h, exists h',
                add_type_node T parent (mk_world (Some tc) h fs)
                = (Throw no_member_get, mk_world (Some tc) h' fs)) Tup ->
    forallb arity_ok Tup = true ->
    N.of_nat (length Tup) <= SIZE_MAX ->
    forallb instantiable Tup = false ->
    forall parent h, exists h',
      traverse_tuple (N.of_nat (length Tup)) Tup parent
                     (mk_world (Some tc) h fs)
      = (Throw no_member_get, mk_world (Some tc) h' fs).
Proof.
  induction 1 as [|Head Tail HHead _ IH]; intros Har Hlen Hbad parent h.
  - discriminate Hbad.
  - cbn [forallb] in Har, Hbad. apply andb_prop in Har.
    destruct Har as [HarH HarT].
    destruct Tail as [|T2 Tail'].
    + cbn in Hbad. rewrite andb_true_r in Hbad.
      cbn [length traverse_tuple]. change (N.of_nat 1 =? 1) with true.
      cbv iota. apply HHead; assumption.
    + change (traverse_tuple (N.of_nat (length (Head :: T2 :: Tail')))
                (Head :: T2 :: Tail') parent)
        with (if N.of_nat (length (Head :: T2 :: Tail')) =? 1
              then add_type_node Head parent
              else bind (add_type_node Head parent)
                     (traverse_tuple
                        (size_pred (N.of_nat (length (Head :: T2 :: Tail'))))
                        (T2 :: Tail'))).
      destruct (N.eqb_spec (N.of_nat (length (Head :: T2 :: Tail'))) 1)
        as [E|_].
      { cbn [length] in E. lia. }
      rewrite size_pred_spec; [|cbn [length]; lia|exact Hlen].
      replace (N.of_nat (length (Head :: T2 :: Tail')) - 1)
        with (N.of_nat (length (T2 :: Tail'))) by (cbn [length]; lia).
      destruct (instantiable Head) eqn:HH.
      * destruct (add_type_node_builds tc fs Head HH h) as (d & h1 & Hd & _).
        erewrite bind_Ok by apply Hd.
        apply IH; [exact HarT|cbn [length] in *; lia|exact Hbad].
      * destruct (HHead HarH eq_refl parent h) as (h' & Hthrow).
        exists h'. erewrite bind_Throw by exact Hthrow. reflexivity.
Qed.

Lemma add_type_node_throws (tc : TypeContainer) fs :
  forall T, arity_ok T = true -> instantiable T = false ->
    forall parent h, exists h',
      add_type_node T parent (mk_world (Some tc) h fs)
      = (Throw no_member_get, mk_world (Some tc) h' fs).
Proof.
  induction T as [p|u|T IH|Ts IH] using ctype_nested_ind;
    intros Har Hbad parent h.
  - discriminate Hbad.
  - discriminate Hbad.
  - cbn [arity_ok instantiable] in Har, Hbad.
    destruct (IH Har Hbad (allocate_node node_element const_vector) h)
      as (h' & Hthrow).
    exists h'. cbn [add_type_node]. apply add_node_Throw.
    erewrite bind_Throw by exact Hthrow. reflexivity.
  - cbn [arity_ok instantiable] in Har, Hbad.
    apply andb_prop in Har. destruct Har as [Hlen HarTs].
    apply N.leb_le in Hlen.
    rewrite add_type_node_tuple.
    destruct Ts as [|T1 Ts'].
    + exists h. apply add_node_Throw. reflexivity.
    + assert (Hbad' : forallb instantiable (T1 :: Ts') = false).
      { destruct (forallb instantiable (T1 :: Ts')); [|reflexivity].
        rewrite andb_true_r in Hbad.
        apply andb_false_iff in Hbad. destruct Hbad as [E|E].
        - apply N.leb_gt in E. cbn [length] in E. lia.
        - apply N.leb_gt in E. lia. }
      destruct (traverse_tuple_throws tc fs (T1 :: Ts') IH HarTs Hlen Hbad'
                  (allocate_node node_element const_tuple) h)
        as (h' & Hthrow).
      exists h'. apply add_node_Throw. exact Hthrow.
Qed.

(** X4.  For a type whose tuple arities are [size_t] values,
    [add_type_node] links a node exactly when no tuple inside the type is
    empty; a type with an empty tuple anywhere inside stops at the primary
    template of [traverse_tuple], which has no member [get]. *)
Theorem add_type_node_instantiable (T : ctype) (parent : xml_node)
        (w : world) :
  arity_ok T = true ->
  if instantiable T
  then exists d w', add_type_node T parent w = (Ok (append_node parent d), w')
  else exists w', add_type_node T parent w = (Throw no_member_get, w').
Proof.
  intros Har. rewrite <- add_type_node_started.
  destruct (TypeContainer_get_started w) as (tc & Htc & _).
  assert (Hw : started w = mk_world (Some tc) (store w) (files w)).
  { unfold started in Htc |- *. cbn in Htc. congruence. }
  rewrite Hw.
  destruct (instantiable T) eqn:HT.
  - destruct (add_type_node_builds tc (files w) T HT (store w))
      as (d & h' & Hd & _).
    exists d. eexists. apply Hd.
  - destruct (add_type_node_throws tc (files w) T Har HT parent (store w))
      as (h' & Hthrow).
    eexists. exact Hthrow.
Qed.

Lemma traverse_tuple_started (n : N) Head Tail parent (w : world) :
  traverse_tuple n (Head :: Tail) parent (started w)
  = traverse_tuple n (Head :: Tail) parent w.
Proof.
  cbn [traverse_tuple]. destruct (n =? 1).
  - apply add_type_node_started.
  - unfold bind. rewrite add_type_node_started. reflexivity.
Qed.

Lemma traverse_tuple_count (tc : TypeContainer) fs :
  forall Tup n h,
    1 <= n -> n <= SIZE_MAX -> forallb instantiable Tup = true ->
    if n <=? N.of_nat (length Tup)
    then exists ds h',
        map view ds = map spec_descriptor (firstn (N.to_nat n) Tup)
        /\ forall parent,
             traverse_tuple n Tup parent (mk_world (Some tc) h fs)
             = (Ok (fold_left append_node ds parent),
                mk_world (Some tc) h' fs)
    else forall parent, exists h',
        traverse_tuple n Tup parent (mk_world (Some tc) h fs)
        = (Throw no_member_get, mk_world (Some tc) h' fs).
Proof.
  induction Tup as [|Head Tail IH]; intros n h Hlo Hhi Hinst.
  - destruct (N.leb_spec n (N.of_nat (length (@nil ctype)))) as [Hle|_].
    + cbn in Hle. lia.
    + intros parent. exists h. reflexivity.
  - cbn [forallb] in Hinst. apply andb_prop in Hinst.
    destruct Hinst as [HH HT].
    destruct (add_type_node_builds tc fs Head HH h) as (d & h1 & Hd & Hview).
    cbn [traverse_tuple].
    destruct (N.eqb_spec n 1) as [->|Hn1].
    + destruct (N.leb_spec 1 (N.of_nat (length (Head :: Tail)))) as [_|Hgt].
      * exists [d], h1. split.
        -- cbn. rewrite Hview. reflexivity.
        -- intros parent. apply Hd.
      * cbn [length] in Hgt. lia.
    + rewrite size_pred_spec by lia.
      specialize (IH (n - 1) h1 ltac:(lia) ltac:(lia) HT).
      assert (Hleb : (n <=? N.of_nat (length (Head :: Tail)))
                     = (n - 1 <=? N.of_nat (length Tail))).
      { cbn [length].
        destruct (N.leb_spec n (N.of_nat (S (length Tail))));
          destruct (N.leb_spec (n - 1) (N.of_nat (length Tail)));
          try reflexivity; lia. }
      rewrite Hleb. destruct (n - 1 <=? N.of_nat (length Tail)).
      * destruct IH as (ds & h' & Hviews & Hrun).
        exists (d :: ds), h'. split.
        -- replace (N.to_nat n) with (S (N.to_nat (n - 1))) by lia.
           cbn. rewrite Hview, Hviews. reflexivity.
        -- intros parent. erewrite bind_Ok by apply Hd.
           rewrite Hrun. destruct parent; reflexivity.
      * intros parent.
        destruct (IH (append_node parent d)) as (h' & Hthrow).
        exists h'. erewrite bind_Ok by apply Hd. exact Hthrow.
Qed.

(** X5.  [traverse_tuple<N, Tup>] links the descriptors of the first [N]
    components of the pack and of no other: with [N] between one and the
    arity the components after the [N]-th are left out, and with [N] above
    the arity the recursion runs out of components and ends at the primary
    template, which has no member [get]. *)
Theorem traverse_tuple_first_n (n : N) (Tup : list ctype) (w : world) :
  1 <= n -> n <= SIZE_MAX -> forallb instantiable Tup = true ->
  if n <=? N.of_nat (length Tup)
  then exists ds w',
      map view ds = map spec_descriptor (firstn (N.to_nat n) Tup)
      /\ forall parent,
           traverse_tuple n Tup parent w
           = (Ok (fold_left append_node ds parent), w')
  else forall parent, exists w',
      traverse_tuple n Tup parent w = (Throw no_member_get, w').
Proof.
  intros Hlo Hhi Hinst.
  destruct Tup as [|Head Tail].
  { destruct (N.leb_spec n (N.of_nat (length (@nil ctype)))) as [Hle|_].
    - cbn in Hle. lia.
    - intros parent. exists w. reflexivity. }
  destruct (TypeContainer_get_started w) as (tc & Htc & _).
  assert (Hw : started w = mk_world (Some tc) (store w) (files w)).
  { unfold started in Htc |- *. cbn in Htc. congruence. }
  pose proof (traverse_tuple_count tc (files w) (Head :: Tail) n (store w)
                Hlo Hhi Hinst) as Hcount.
  rewrite <- Hw in Hcount.
  destruct (n <=? N.of_nat (length (Head :: Tail))).
  - destruct Hcount as (ds & h' & Hviews & Hrun).
    exists ds. eexists. split; [exact Hviews|].
    intros parent. rewrite <- traverse_tuple_started. apply Hrun.
  - intros parent. destruct (Hcount parent) as (h' & Hthrow).
    eexists. rewrite <- traverse_tuple_started. exact Hthrow.
Qed.

Lemma descriptor_schema_spec :
  forall T, instantiable T = true ->
            descriptor_schema (spec_descriptor T) = true.
Proof.
  induction T as [p|u|T IH|Ts IH] using ctype_nested_ind; intros HT.
  - reflexivity.
  - reflexivity.
  - cbn [instantiable] in HT. cbn. rewrite (IH HT). reflexivity.
  - cbn [instantiable] in HT.
    apply andb_prop in HT. destruct HT as [HT Hall].
    apply andb_prop in HT. destruct HT as [Hlo _]. apply N.leb_le in Hlo.
    cbn [spec_descriptor descriptor_schema].
    change (String.eqb const_tuple const_primitive) with false.
    change (String.eqb const_tuple const_vector) with false.
    change (String.eqb const_tuple const_tuple) with true. cbv iota.
    change (keys_are [] (Tag const_tuple [] (map spec_descriptor Ts)))
      with true.
    destruct Ts as [|T1 Ts']; [cbn in Hlo; lia|].
    cbn [map andb].
    change (forallb descriptor_schema
              (map spec_descriptor (T1 :: Ts')) = true).
    rewrite forallb_forall. intros t Ht. apply in_map_iff in Ht.
    destruct Ht as (T & <- & HIn).
    rewrite Forall_forall in IH. rewrite forallb_forall in Hall.
    apply IH; [exact HIn|]. apply Hall. exact HIn.
Qed.

(** X6.  After any sequence of calls every top-level entry is a [data_type]
    element with the single attribute [name] and a single child, and every
    element below is a [primitive] leaf with exactly [name] and [size], a
    [vector] with exactly [size] and one child, or a [tuple] with no
    attribute and at least one child. *)
Theorem entries_follow_schema (Ts : list ctype) h fs :
  forallb instantiable Ts = true ->
  exists w',
    traverse_all Ts (fresh h fs) = (Ok tt, w')
    /\ Forall (fun e => entry_schema (view e) = true) (entries w').
Proof.
  intros Hinst.
  destruct (catalogue_after_calls Ts h fs Hinst) as (w' & Hrun & Hview & _).
  exists w'. split; [exact Hrun|].
  apply Forall_map with (f := view) (P := fun t => entry_schema t = true).
  rewrite Hview. apply Forall_map. apply Forall_forall.
  intros T HT. unfold entry_schema, spec_entry.
  cbn [tag_name tag_children].
  rewrite descriptor_schema_spec; [reflexivity|].
  rewrite forallb_forall in Hinst. apply Hinst.
  eapply first_calls_incl. exact HT.
Qed.

Lemma text_attr_view (key : string) (d : xml_node) :
  text_attr key (view d)
  = option_map (fun a => c_text (a_value a)) (first_attribute key d).
Proof.
  destruct d as [t s a c]. unfold text_attr, first_attribute.
  cbn [view tag_attrs n_attributes].
  induction a as [|x a IH]; [reflexivity|].
  cbn [map find fst]. destruct (String.eqb (a_name x) key); [reflexivity|].
  exact IH.
Qed.

(** X7.  The size written into a descriptor is read back by
    [char_to_size]: the node built for a type that is not a tuple carries a
    [size] attribute whose value [char_to_size] turns into [sizeof(T)],
    provided [sizeof(T)] is a [size_t] value; the node built for a tuple
    carries no [size] attribute to read. *)
Theorem built_size_reads_back (T : ctype) (w : world) :
  instantiable T = true -> sizeof T < 2 ^ size_bits ->
  exists d w',
    builds T w d w'
    /\ match T with
       | TTuple _ => first_attribute const_size d = None
       | _ => exists a, first_attribute const_size d = Some a
                        /\ char_to_size (a_value a) = sizeof T
       end.
Proof.
  intros HT Hsize.
  destruct (add_type_node_builds_any T w HT) as (d & h' & Hd & Hview).
  exists d. eexists. split; [exact Hd|].
  pose proof (text_attr_view const_size d) as Htext.
  rewrite Hview in Htext.
  destruct T as [p|u|T'|Ts]; cbn in Htext;
    destruct (first_attribute const_size d) as [a|];
    try discriminate Htext; try reflexivity;
    exists a; (split; [reflexivity|]);
    cbn in Htext; inversion Htext as [Ha];
    unfold char_to_size; rewrite <- Ha;
    apply extract_size_to_string; exact Hsize.
Qed.

Lemma find_app_first {A} (f : A -> bool) (l l' : list A) :
  find f (l ++ l') = match find f l with
                     | Some x => Some x
                     | None => find f l'
                     end.
Proof.
  induction l as [|x l IH]; [reflexivity|].
  cbn. destruct (f x); [reflexivity|exact IH].
Qed.

(** X8.  [add_attribute] never replaces an attribute: it leaves the
    element's type, name and children alone and appends, so that
    [first_attribute] for a name the node already carries still returns the
    old attribute, and returns the new one only when the node had none of
    that name. *)
Theorem add_attribute_lookup (node : xml_node) (attr_name key : string)
        (attr_val : cstr) (w : world) :
  exists node',
    add_attribute node attr_name attr_val w = (Ok node', started w)
    /\ n_type node' = n_type node
    /\ n_name node' = n_name node
    /\ n_children node' = n_children node
    /\ first_attribute key node'
       = match first_attribute key node with
         | Some old => Some old
         | None => if String.eqb attr_name key
                   then Some (mk_attribute attr_name attr_val)
                   else None
         end.
Proof.
  destruct (TypeContainer_get_started w) as (tc & _ & Hget).
  eexists. split.
  - unfold add_attribute. erewrite bind_Ok by exact Hget. reflexivity.
  - destruct node as [t s a c]. cbn [n_type n_name n_children append_attribute].
    repeat (split; [reflexivity|]).
    unfold first_attribute. cbn [n_attributes].
    rewrite find_app_first. reflexivity.
Qed.

End Builder_more.

Lemma add_type_node_instantiable_witness :
  @arity_ok demo_host (TVector (TTuple [TPrim p_int; TTuple []])) = true
  /\ exists w',
       @add_type_node demo_host (TVector (TTuple [TPrim p_int; TTuple []]))
         (allocate_node node_element "parent") (demo_world _)
       = (Throw no_member_get, w').
Proof.
  split; [reflexivity|].
  apply (@add_type_node_instantiable demo_host
           (TVector (TTuple [TPrim p_int; TTuple []]))
           (allocate_node node_element "parent") (demo_world _)).
  reflexivity.
Defined.

Lemma traverse_tuple_first_n_witness :
  1 <= 2 /\ 2 <= @SIZE_MAX demo_host
  /\ @forallb ctype (@instantiable demo_host)
       [TPrim p_int; TPrim p_float; TPrim p_bool] = true
  /\ exists ds w',
       map view ds
       = map (@spec_descriptor demo_host) [TPrim p_int; TPrim p_float]
       /\ forall parent,
            @traverse_tuple demo_host 2
              [TPrim p_int; TPrim p_float; TPrim p_bool] parent (demo_world _)
            = (Ok (fold_left append_node ds parent), w').
Proof.
  split; [discriminate|]. split; [discriminate|]. split; [reflexivity|].
  apply (@traverse_tuple_first_n demo_host 2
           [TPrim p_int; TPrim p_float; TPrim p_bool] (demo_world _)).
  - discriminate.
  - discriminate.
  - reflexivity.
Defined.

Lemma entries_follow_schema_witness :
  @forallb ctype (@instantiable demo_host)
     [TVector (TTuple [TPrim p_char; TPrim p_double]); TOther 3] = true
  /\ exists w',
       @traverse_all demo_host
         [TVector (TTuple [TPrim p_char; TPrim p_double]); TOther 3]
         (demo_world _) = (Ok tt, w')
       /\ Forall (fun e => entry_schema (view e) = true)
                 (@entries demo_host w').
Proof.
  split; [reflexivity|].
  apply (@entries_follow_schema demo_host
           [TVector (TTuple [TPrim p_char; TPrim p_double]); TOther 3]
           1048576 []).
  reflexivity.
Defined.

Lemma built_size_reads_back_witness :
  @instantiable demo_host (TVector (TPrim p_int)) = true
  /\ @sizeof demo_host (TVector (TPrim p_int)) < 2 ^ @size_bits demo_host
  /\ exists d w',
       @builds demo_host (TVector (TPrim p_int)) (demo_world _) d w'
       /\ exists a, first_attribute const_size d = Some a
                    /\ @char_to_size demo_host (a_value a) = 24.
Proof.
  split; [reflexivity|]. split; [reflexivity|].
  apply (@built_size_reads_back demo_host (TVector (TPrim p_int))
           (demo_world _)); reflexivity.
Defined.

(** ** More on sizes *)

Section Sizes_more.
Context `{Host}.

Lemma append_assoc_string (a b c : string) :
  ((a ++ b) ++ c)%string = (a ++ (b ++ c))%string.
Proof.
  induction a as [|x a IH]; [reflexivity|]. cbn. rewrite IH. reflexivity.
Qed.

Lemma to_chars_acc (fuel : nat) :
  forall n acc, to_chars fuel n acc = (to_chars fuel n "" ++ acc)%string.
Proof.
  induction fuel as [|fuel IH]; intros n acc; [reflexivity|].
  cbn [to_chars]. destruct (n / 10 =? 0); [reflexivity|].
  rewrite IH. rewrite (IH (n / 10) (String _ "")).
  rewrite append_assoc_string. reflexivity.
Qed.

Lemma skip_ws_spaces (ws s : string) :
  all_space ws = true -> skip_ws (ws ++ s) = skip_ws s.
Proof.
  induction ws as [|c ws IH]; intros Hws; [reflexivity|].
  cbn [all_space] in Hws. apply andb_prop in Hws. destruct Hws as [Hc Hws].
  cbn [append skip_ws]. rewrite Hc. apply IH. exact Hws.
Qed.

Lemma digits_value_stops (rest : string) (v : N) :
  starts_with_digit rest = false -> digits_value rest v = v.
Proof.
  destruct rest as [|c rest]; [reflexivity|].
  cbn. intros ->. reflexivity.
Qed.

(** X10.  [char_to_size] reads the number a text starts with: white space
    before the digits is skipped and whatever follows them, from the first
    character that is no digit, is ignored.  So the decimal text of a
    [size_t] value is read back as that value also with spaces before it
    and other text after it. *)
Theorem char_to_size_ignores_surroundings (n : N) (ws rest : string)
        (a : N) :
  n < 2 ^ size_bits -> all_space ws = true ->
  starts_with_digit rest = false ->
  char_to_size (mk_cstr a (ws ++ to_string n ++ rest)) = n.
Proof.
  intros Hn Hws Hrest. unfold char_to_size, extract_size. cbn [c_text].
  rewrite (skip_ws_spaces ws _ Hws).
  unfold to_string. rewrite <- to_chars_acc.
  destruct (to_chars_head (N.to_nat (N.log2 n)) n rest) as (c & s & Hs & Hc).
  assert (Hv : digits_value (to_chars (N.to_nat (N.log2 n)) n rest) 0 = n).
  { rewrite digits_value_to_chars.
    - apply digits_value_stops. exact Hrest.
    - rewrite Nnat.Nat2N.inj_succ, Nnat.N2Nat.id.
      destruct n as [|p]; [reflexivity|]. apply N.log2_spec. lia. }
  rewrite Hs in Hv |- *. cbn [skip_ws].
  rewrite (is_digit_not_space c Hc).
  assert (Hcode : 48 <= N_of_ascii c).
  { unfold is_digit in Hc. apply andb_prop in Hc. apply N.leb_le. apply Hc. }
  destruct (N.eqb_spec (N_of_ascii c) 45) as [E|_]; [lia|].
  destruct (N.eqb_spec (N_of_ascii c) 43) as [E|_]; [lia|].
  cbn [starts_with_digit]. rewrite Hc, Hv.
  destruct (N.ltb_spec SIZE_MAX n) as [Hlt|_]; [|reflexivity].
  unfold SIZE_MAX in Hlt. lia.
Qed.

(** X12.  A decimal text whose value is above the largest [size_t] is not
    read modulo the word size: [char_to_size] gives that largest value. *)
Theorem char_to_size_saturates (n a : N) :
  SIZE_MAX < n -> char_to_size (mk_cstr a (to_string n)) = SIZE_MAX.
Proof.
  intros Hn. unfold char_to_size, extract_size. cbn [c_text].
  destruct (to_chars_head (N.to_nat (N.log2 n)) n "") as (c & s & Hs & Hc).
  fold (to_string n) in Hs.
  pose proof (digits_value_to_string n) as Hv.
  rewrite Hs in Hv |- *. cbn [skip_ws].
  rewrite (is_digit_not_space c Hc).
  assert (Hcode : 48 <= N_of_ascii c).
  { unfold is_digit in Hc. apply andb_prop in Hc. apply N.leb_le. apply Hc. }
  destruct (N.eqb_spec (N_of_ascii c) 45) as [E|_]; [lia|].
  destruct (N.eqb_spec (N_of_ascii c) 43) as [E|_]; [lia|].
  cbn [starts_with_digit]. rewrite Hc, Hv.
  destruct (N.ltb_spec SIZE_MAX n) as [_|Hge]; [reflexivity|lia].
Qed.

End Sizes_more.

Lemma char_to_size_ignores_surroundings_witness :
  24 < 2 ^ @size_bits demo_host
  /\ all_space "  " = true
  /\ starts_with_digit " bytes" = false
  /\ @char_to_size demo_host (mk_cstr 0 ("  " ++ to_string 24 ++ " bytes"))
     = 24.
Proof.
  split; [reflexivity|]. split; [reflexivity|]. split; [reflexivity|].
  apply (@char_to_size_ignores_surroundings demo_host 24 "  " " bytes" 0);
    reflexivity.
Defined.

Lemma char_to_size_saturates_witness :
  @SIZE_MAX demo_host < 18446744073709551616
  /\ @char_to_size demo_host (mk_cstr 0 (to_string 18446744073709551616))
     = @SIZE_MAX demo_host.
Proof.
  split; [reflexivity|].
  apply (@char_to_size_saturates demo_host 18446744073709551616 0).
  reflexivity.
Defined.
